(** * Keybinding resolver

    A shallow embedding of [KeybindingResolver]
    (src/vs/platform/keybinding/common/keybindingResolver.ts) and the
    properties of its removal pass, index construction, resolution and
    reverse lookup.

    JavaScript [Map]s are finite maps ([gmap]) from strings to arrays;
    arrays are lists, [push] appends at the end.  Methods that mutate
    [this] take the resolver and return the updated one.  The logging
    sink [_log] is write-only and is left out, together with the fields
    of a rule that only the log messages read. *)

From Stdlib Require Import Ascii String.
From stdpp Require Import base option list strings gmap.

(** ** The collaborators of the resolver *)

(** Modelled from the spec: the enumeration [ContextKeyExprType] is
    declared in the context-key module, which is not part of the
    resolver's file.  The resolver inspects the two constant sentinels
    only; every other kind of expression is [ExprOther]. *)
Inductive ContextKeyExprType : Set :=
  | ExprFalse
  | ExprTrue
  | ExprOther.

#[global] Instance ContextKeyExprType_eq_dec : EqDecision ContextKeyExprType.
Proof. solve_decision. Defined.

(** Modelled from the spec: the context-key module, the resolved
    keybinding item and the keybound command are declared outside the
    resolver's file.  What the resolver imports from them is a
    parameter: the predicate language with its evaluation, implication
    and equality checks, the live context service, and the payload of a
    command.  The one law is the spec's reading of the constant-false
    sentinel, a predicate that can never fire. *)
Class Collaborators := {
  ContextKeyExpression : Type;
  IContext : Type;
  IContextKeyService : Type;
  CommandArgs : Type;
  exprType : ContextKeyExpression → ContextKeyExprType;
  evaluate : ContextKeyExpression → IContext → bool;
  implies : ContextKeyExpression → ContextKeyExpression → bool;
  expressionsAreEqualWithConstantSubstitution :
    ContextKeyExpression → ContextKeyExpression → bool;
  contextMatchesRules : IContextKeyService → option ContextKeyExpression → bool;
  evaluate_False : ∀ e ctx, exprType e = ExprFalse → evaluate e ctx = false
}.

(** ** Strings as the resolver reads them *)

(** [s.charAt(0) === '-'] *)
Definition startsWithDash (s : string) : bool :=
  match s with
  | String a _ => bool_decide (a = "-"%char)
  | EmptyString => false
  end.

(** [s.substring(1)] *)
Definition substring1 (s : string) : string :=
  match s with
  | String _ t => t
  | EmptyString => EmptyString
  end.

(** Truthiness of a [string | null | undefined] value: [null],
    [undefined] and the empty string are falsy. *)
Definition truthy (s : option string) : bool :=
  match s with
  | Some s => negb (bool_decide (s = EmptyString))
  | None => false
  end.

Section Resolver.
Context `{CK : Collaborators}.

(** ** Data model *)

(** Modelled from the spec: a command of a rule, its identifier and its
    optional arguments. *)
Record KeyboundCommand := {
  command : string;
  args : option CommandArgs
}.

(** Modelled from the spec: the fields of a binding rule that the
    resolver reads.  A rule is an object: [ref] is its identity, the
    only thing [===] compares.  Chords are strings; [chords[i]] is
    [chords !! i], with [None] for [undefined]. *)
Record ResolvedKeybindingItem := {
  ref : nat;
  chords : list string;
  when : option ContextKeyExpression;
  commands : list KeyboundCommand;
  isDefault : bool;
  bubble : bool
}.

(** The fields [commands] and [bubble] of the result are
    [resultCommands] and [resultBubble] here, the names being taken by
    the fields of a rule. *)
Record IResolveResult := {
  enterMultiChord : bool;
  leaveMultiChord : bool;
  resultCommands : list KeyboundCommand;
  resultBubble : bool
}.

Record KeybindingResolver := {
  _defaultKeybindings : list ResolvedKeybindingItem;
  _keybindings : list ResolvedKeybindingItem;
  _defaultBoundCommands : gmap string bool;
  _map : gmap string (list ResolvedKeybindingItem);
  _lookupMap : gmap string (list ResolvedKeybindingItem)
}.

(** [a === b] on rules *)
Definition sameObject (a b : ResolvedKeybindingItem) : bool :=
  bool_decide (ref a = ref b).

(** [when && when.type === t] *)
Definition whenHasType (w : option ContextKeyExpression)
    (t : ContextKeyExprType) : bool :=
  match w with
  | Some e => bool_decide (exprType e = t)
  | None => false
  end.

(** Modelled from the spec: [arrays.equals] of the base library, which
    compares two arrays element by element with the given equality. *)
Fixpoint arrays_equals {A} (itemEquals : A → A → bool)
    (one other : list A) : bool :=
  match one, other with
  | [], [] => true
  | a :: one', b :: other' =>
      itemEquals a b && arrays_equals itemEquals one' other'
  | _, _ => false
  end.

(** ** The removal pass *)

Definition _isTargetedForRemoval (defaultKb : ResolvedKeybindingItem)
    (keypressFirstPart keypressChordPart : option string)
    (when_ : option ContextKeyExpression) : bool :=
  if truthy keypressFirstPart
     && negb (bool_decide (chords defaultKb !! 0 = keypressFirstPart))
  then false
  else if truthy keypressChordPart
     && negb (bool_decide (chords defaultKb !! 1 = keypressChordPart))
  then false
  else
    match when_ with
    | Some w =>
        if negb (bool_decide (exprType w = ExprTrue)) then
          match when defaultKb with
          | None => false
          | Some dw =>
              if negb (expressionsAreEqualWithConstantSubstitution w dw)
              then false
              else true
          end
        else true
    | None => true
    end.

(** First pass, one iteration: a single-command rule whose command
    starts with '-' is recorded under the command it targets. *)
Definition recordRemoval
    (removals : gmap string (list ResolvedKeybindingItem))
    (rule : ResolvedKeybindingItem) :
    gmap string (list ResolvedKeybindingItem) :=
  match commands rule with
  | [c] =>
      if startsWithDash (command c) then
        let target := substring1 (command c) in
        match removals !! target with
        | None => <[target := [rule]]> removals
        | Some rs => <[target := rs ++ [rule]]> removals
        end
      else removals
  | _ => removals
  end.

(** The inner loop over the removals of one command, with its [break]. *)
Fixpoint isRemovedBy (rule : ResolvedKeybindingItem)
    (commandRemovals : list ResolvedKeybindingItem) : bool :=
  match commandRemovals with
  | [] => false
  | commandRemoval :: rest =>
      let keypressFirstChord := chords commandRemoval !! 0 in
      let keypressSecondChord := chords commandRemoval !! 1 in
      if _isTargetedForRemoval rule keypressFirstChord keypressSecondChord
           (when commandRemoval)
      then true
      else isRemovedBy rule rest
  end.

(** Second pass, one iteration. *)
Definition keepOrDrop
    (removals : gmap string (list ResolvedKeybindingItem))
    (result : list ResolvedKeybindingItem)
    (rule : ResolvedKeybindingItem) : list ResolvedKeybindingItem :=
  match commands rule with
  | [] => result ++ [rule]
  | _ :: _ :: _ => result ++ [rule]
  | [c] =>
      if bool_decide (String.length (command c) = 0) then result ++ [rule]
      else if startsWithDash (command c) then result
      else
        match removals !! command c with
        | None => result ++ [rule]
        | Some commandRemovals =>
            if negb (isDefault rule) then result ++ [rule]
            else if negb (isRemovedBy rule commandRemovals)
            then result ++ [rule]
            else result
        end
  end.

Definition handleRemovals (rules : list ResolvedKeybindingItem) :
    list ResolvedKeybindingItem :=
  let removals := foldl recordRemoval ∅ rules in
  if bool_decide (size removals = 0) then rules
  else foldl (keepOrDrop removals) [] rules.

(** ** Index construction *)

Definition setLookupMap (this : KeybindingResolver)
    (m : gmap string (list ResolvedKeybindingItem)) : KeybindingResolver :=
  {| _defaultKeybindings := _defaultKeybindings this;
     _keybindings := _keybindings this;
     _defaultBoundCommands := _defaultBoundCommands this;
     _map := _map this;
     _lookupMap := m |}.

Definition setMap (this : KeybindingResolver)
    (m : gmap string (list ResolvedKeybindingItem)) : KeybindingResolver :=
  {| _defaultKeybindings := _defaultKeybindings this;
     _keybindings := _keybindings this;
     _defaultBoundCommands := _defaultBoundCommands this;
     _map := m;
     _lookupMap := _lookupMap this |}.

Definition _addToLookupMap (item : ResolvedKeybindingItem)
    (this : KeybindingResolver) : KeybindingResolver :=
  match commands item with
  | [c] =>
      match _lookupMap this !! command c with
      | None => setLookupMap this (<[command c := [item]]> (_lookupMap this))
      | Some arr =>
          setLookupMap this (<[command c := arr ++ [item]]> (_lookupMap this))
      end
  | _ => this
  end.

(** The search of [_removeFromLookupMap]: the first entry that is the
    object [item] is spliced out, the others keep their order. *)
Fixpoint spliceFirst (item : ResolvedKeybindingItem)
    (arr : list ResolvedKeybindingItem) : list ResolvedKeybindingItem :=
  match arr with
  | [] => []
  | x :: rest =>
      if sameObject x item then rest else x :: spliceFirst item rest
  end.

Definition _removeFromLookupMap (item : ResolvedKeybindingItem)
    (this : KeybindingResolver) : KeybindingResolver :=
  match commands item with
  | [c] =>
      match _lookupMap this !! command c with
      | None => this
      | Some arr =>
          setLookupMap this
            (<[command c := spliceFirst item arr]> (_lookupMap this))
      end
  | _ => this
  end.

Definition whenIsEntirelyIncluded (a b : option ContextKeyExpression) : bool :=
  match b with
  | None => true
  | Some b' =>
      if bool_decide (exprType b' = ExprTrue) then true
      else
        match a with
        | None => false
        | Some a' =>
            if bool_decide (exprType a' = ExprTrue) then false
            else implies a' b'
        end
  end.

(** The body of the loop of [_addKeyPress] for one [conflict]. *)
Definition shadowConflict (item conflict : ResolvedKeybindingItem)
    (this : KeybindingResolver) : KeybindingResolver :=
  if arrays_equals (λ a b, bool_decide (command a = command b))
       (commands conflict) (commands item)
  then this
  else
    let conflictHasMultipleChords := bool_decide (1 < length (chords conflict)) in
    let itemHasMultipleChords := bool_decide (1 < length (chords item)) in
    if conflictHasMultipleChords && itemHasMultipleChords
       && negb (bool_decide (chords conflict !! 1 = chords item !! 1))
    then this
    else if whenIsEntirelyIncluded (when conflict) (when item)
    then _removeFromLookupMap conflict this
    else this.

(** [for (let i = n - 1; i >= 0; i--)] over [conflicts]. *)
Fixpoint shadowConflicts (item : ResolvedKeybindingItem)
    (conflicts : list ResolvedKeybindingItem) (n : nat)
    (this : KeybindingResolver) : KeybindingResolver :=
  match n with
  | 0 => this
  | S i =>
      match conflicts !! i with
      | Some conflict =>
          shadowConflicts item conflicts i (shadowConflict item conflict this)
      | None => this
      end
  end.

Definition _addKeyPress (keypress : string) (item : ResolvedKeybindingItem)
    (this : KeybindingResolver) : KeybindingResolver :=
  match _map this !! keypress with
  | None =>
      _addToLookupMap item (setMap this (<[keypress := [item]]> (_map this)))
  | Some conflicts =>
      let this1 := shadowConflicts item conflicts (length conflicts) this in
      let this2 := setMap this1 (<[keypress := conflicts ++ [item]]> (_map this1)) in
      _addToLookupMap item this2
  end.

(** The body of the constructor's loop over the merged rules. *)
Definition indexRule (this : KeybindingResolver)
    (k : ResolvedKeybindingItem) : KeybindingResolver :=
  match chords k with
  | [] => this
  | keypress :: _ =>
      if whenHasType (when k) ExprFalse then this
      else _addKeyPress keypress k this
  end.

Definition recordDefaultBound (m : gmap string bool)
    (c : KeyboundCommand) : gmap string bool :=
  if negb (bool_decide (command c = EmptyString)) && negb (startsWithDash (command c))
  then <[command c := true]> m
  else m.

Definition newKeybindingResolver
    (defaultKeybindings overrides : list ResolvedKeybindingItem) :
    KeybindingResolver :=
  let defaultBoundCommands :=
    foldl (λ m defaultKeybinding,
             foldl recordDefaultBound m (commands defaultKeybinding))
          ∅ defaultKeybindings in
  let keybindings := handleRemovals (([] ++ defaultKeybindings) ++ overrides) in
  foldl indexRule
    {| _defaultKeybindings := defaultKeybindings;
       _keybindings := keybindings;
       _defaultBoundCommands := defaultBoundCommands;
       _map := ∅;
       _lookupMap := ∅ |}
    keybindings.

Definition getDefaultBoundCommands (this : KeybindingResolver) :
    gmap string bool :=
  _defaultBoundCommands this.

Definition getDefaultKeybindings (this : KeybindingResolver) :
    list ResolvedKeybindingItem :=
  _defaultKeybindings this.

Definition getKeybindings (this : KeybindingResolver) :
    list ResolvedKeybindingItem :=
  _keybindings this.

(** ** Reverse lookup *)

(** [for (let i = n - 1; i >= 0; i--) result[resultLen++] = items[i]] *)
Fixpoint copyBackwards (items : list ResolvedKeybindingItem) (n : nat)
    (result : list ResolvedKeybindingItem) : list ResolvedKeybindingItem :=
  match n with
  | 0 => result
  | S i =>
      match items !! i with
      | Some x => copyBackwards items i (result ++ [x])
      | None => result
      end
  end.

Definition lookupKeybindings (this : KeybindingResolver)
    (commandId : string) : list ResolvedKeybindingItem :=
  match _lookupMap this !! commandId with
  | None => []
  | Some items =>
      if bool_decide (length items = 0) then []
      else copyBackwards items (length items) []
  end.

(** [for (let i = n - 1; i >= 0; i--) if (accepts(items[i])) return items[i]],
    the scan of [lookupPrimaryKeybinding] and of [_findCommand]. *)
Fixpoint scanBackwards (accepts : ResolvedKeybindingItem → bool)
    (items : list ResolvedKeybindingItem) (n : nat) :
    option ResolvedKeybindingItem :=
  match n with
  | 0 => None
  | S i =>
      match items !! i with
      | Some item => if accepts item then Some item else scanBackwards accepts items i
      | None => None
      end
  end.

Definition lookupPrimaryKeybinding (this : KeybindingResolver)
    (commandId : string) (context : IContextKeyService) :
    option ResolvedKeybindingItem :=
  match _lookupMap this !! commandId with
  | None => None
  | Some items =>
      if bool_decide (length items = 0) then None
      else if bool_decide (length items = 1) then items !! 0
      else
        match scanBackwards (λ item, contextMatchesRules context (when item))
                items (length items) with
        | Some item => Some item
        | None => items !! (length items - 1)
        end
  end.

(** ** Resolution *)

Definition _contextMatchesRules (context : IContext)
    (rules : option ContextKeyExpression) : bool :=
  match rules with
  | None => true
  | Some e => evaluate e context
  end.

Definition _findCommand (context : IContext)
    (matches : list ResolvedKeybindingItem) : option ResolvedKeybindingItem :=
  scanBackwards (λ k, _contextMatchesRules context (when k))
    matches (length matches).

(** [c !== null] for a chord read from the array: it is a string or
    [undefined], and neither is [null]. *)
Definition isNotNull (c : option string) : bool := true.

(** The value [resolve] returns once [_findCommand] has picked
    [result]: the enter-multi-chord signal, or the commands to run. *)
Definition resolveResult (currentChord : option string)
    (result : ResolvedKeybindingItem) : IResolveResult :=
  if bool_decide (currentChord = None)
     && bool_decide (1 < length (chords result))
     && isNotNull (chords result !! 1)
  then {| enterMultiChord := true;
          leaveMultiChord := false;
          resultCommands := [];
          resultBubble := false |}
  else {| enterMultiChord := false;
          leaveMultiChord := bool_decide (1 < length (chords result));
          resultCommands := commands result;
          resultBubble := bubble result |}.

(** The candidates [resolve] hands to [_findCommand]: in mid-chord
    state the rules indexed under [currentChord] whose second chord is
    the key pressed, otherwise the rules indexed under that key. *)
Definition resolveCandidates (this : KeybindingResolver)
    (currentChord : option string) (keypress : string) :
    option (list ResolvedKeybindingItem) :=
  match currentChord with
  | Some chord =>
      match _map this !! chord with
      | None => None
      | Some candidates =>
          Some (foldl (λ lookupMap candidate,
                         if bool_decide (chords candidate !! 1 = Some keypress)
                         then lookupMap ++ [candidate] else lookupMap)
                      [] candidates)
      end
  | None => _map this !! keypress
  end.

Definition resolve (this : KeybindingResolver) (context : IContext)
    (currentChord : option string) (keypress : string) :
    option IResolveResult :=
  match resolveCandidates this currentChord keypress with
  | None => None
  | Some lookupMap =>
      match _findCommand context lookupMap with
      | None => None
      | Some result => Some (resolveResult currentChord result)
      end
  end.

End Resolver.

Arguments KeyboundCommand : clear implicits.
Arguments ResolvedKeybindingItem : clear implicits.
Arguments IResolveResult : clear implicits.
Arguments KeybindingResolver : clear implicits.

(** ** Vocabulary of the statements *)

Section Vocabulary.
Context `{CK : Collaborators}.

(** The command a removal directive targets: the rule has exactly one
    command, it starts with '-', and the target is the rest. *)
Definition removalTarget (rule : ResolvedKeybindingItem CK) : option string :=
  match commands rule with
  | [c] => if startsWithDash (command c) then Some (substring1 (command c))
           else None
  | _ => None
  end.

Definition isRemovalDirective (rule : ResolvedKeybindingItem CK) : bool :=
  bool_decide (is_Some (removalTarget rule)).

(** The rule is a removal directive for command [c]. *)
Definition targets (c : string) (rule : ResolvedKeybindingItem CK) : bool :=
  bool_decide (removalTarget rule = Some c).

(** Zero commands, several commands, or one command that is the empty
    string. *)
Definition passesThrough (rule : ResolvedKeybindingItem CK) : bool :=
  match commands rule with
  | [c] => bool_decide (command c = EmptyString)
  | _ => true
  end.

(** The rule has exactly one command, with identifier [c]. *)
Definition bindsCommand (c : string) (rule : ResolvedKeybindingItem CK) : Prop :=
  command <$> commands rule = [c].

(** The removals map of the first pass. *)
Definition removalsOf (rules : list (ResolvedKeybindingItem CK)) :
    gmap string (list (ResolvedKeybindingItem CK)) :=
  foldl recordRemoval ∅ rules.

(** The decision of the second pass for one rule. *)
Definition survives (removals : gmap string (list (ResolvedKeybindingItem CK)))
    (rule : ResolvedKeybindingItem CK) : bool :=
  match commands rule with
  | [c] =>
      if bool_decide (command c = EmptyString) then true
      else if startsWithDash (command c) then false
      else
        match removals !! command c with
        | None => true
        | Some commandRemovals =>
            negb (isDefault rule) || negb (isRemovedBy rule commandRemovals)
        end
  | _ => true
  end.

(** The rule is admitted to the chord index under [keypress]. *)
Definition indexedAt (keypress : string) (rule : ResolvedKeybindingItem CK) : bool :=
  bool_decide (chords rule !! 0 = Some keypress)
  && negb (whenHasType (when rule) ExprFalse).

(** The rule is admitted to the chord index under some key. *)
Definition indexed (rule : ResolvedKeybindingItem CK) : bool :=
  bool_decide (chords rule ≠ []) && negb (whenHasType (when rule) ExprFalse).

#[global] Instance bindsCommand_dec c rule : Decision (bindsCommand c rule).
Proof. unfold bindsCommand. apply _. Defined.

(** How many entries of [l] are the object with identity [id]. *)
Definition occurrences (id : nat) (l : list (ResolvedKeybindingItem CK)) : nat :=
  length (filter (λ x, ref x = id) l).

(** The predicate of the rule holds in the context; an absent
    predicate counts as true. *)
Definition satisfiedIn (context : IContext)
    (rule : ResolvedKeybindingItem CK) : bool :=
  _contextMatchesRules context (when rule).

(** The entry of a multimap, the empty list when there is none. *)
Definition entry (m : gmap string (list (ResolvedKeybindingItem CK)))
    (k : string) : list (ResolvedKeybindingItem CK) :=
  default [] (m !! k).

(** Two resolver states that differ in the reverse index at most. *)
Definition sameButLookupMap (this this' : KeybindingResolver CK) : Prop :=
  _map this' = _map this
  ∧ _keybindings this' = _keybindings this
  ∧ _defaultKeybindings this' = _defaultKeybindings this
  ∧ _defaultBoundCommands this' = _defaultBoundCommands this.

(** [c] is a command identifier that the constructor's first loop
    records: not empty, not starting with '-', and among the commands
    of some rule of [defaults]. *)
Definition recordedDefault (defaults : list (ResolvedKeybindingItem CK))
    (c : string) : Prop :=
  c ≠ EmptyString ∧ startsWithDash c = false
  ∧ Exists (λ d, c ∈ command <$> commands d) defaults.

#[global] Instance recordedDefault_dec defaults c :
  Decision (recordedDefault defaults c).
Proof. unfold recordedDefault. apply _. Defined.

(** The chords of the rule are those of the call: its first chord is
    the key pressed in fresh state; in mid-chord state its first chord
    is the current chord and its second chord the key pressed. *)
Definition matchesKeys (currentChord : option string) (keypress : string)
    (rule : ResolvedKeybindingItem CK) : Prop :=
  match currentChord with
  | Some chord => chords rule !! 0 = Some chord ∧ chords rule !! 1 = Some keypress
  | None => chords rule !! 0 = Some keypress
  end.

(** The candidates of [resolve], read off the merged rule list. *)
Definition candidatesOf (rules : list (ResolvedKeybindingItem CK))
    (currentChord : option string) (keypress : string) :
    list (ResolvedKeybindingItem CK) :=
  match currentChord with
  | Some chord =>
      filter (λ r, chords r !! 1 = Some keypress)
             (filter (λ r, indexedAt chord r) rules)
  | None => filter (λ r, indexedAt keypress r) rules
  end.

End Vocabulary.

(** ** A small predicate language for the examples

    Expressions are the two constants or the test of one context key;
    a context is the list of the keys that are set. *)
Module Sample.

Inductive Expr : Set :=
  | ConstFalse
  | ConstTrue
  | Has (key : string).

#[global] Instance Expr_eq_dec : EqDecision Expr.
Proof. solve_decision. Defined.

Definition typeOf (e : Expr) : ContextKeyExprType :=
  match e with
  | ConstFalse => ExprFalse
  | ConstTrue => ExprTrue
  | Has _ => ExprOther
  end.

Definition eval (e : Expr) (ctx : list string) : bool :=
  match e with
  | ConstFalse => false
  | ConstTrue => true
  | Has key => bool_decide (key ∈ ctx)
  end.

Definition entails (a b : Expr) : bool :=
  match a, b with
  | ConstFalse, _ => true
  | _, ConstTrue => true
  | Has k, Has k' => bool_decide (k = k')
  | _, _ => false
  end.

Definition collaborators : Collaborators :=
  {| ContextKeyExpression := Expr;
     IContext := list string;
     IContextKeyService := list string;
     CommandArgs := string;
     exprType := typeOf;
     evaluate := eval;
     implies := entails;
     expressionsAreEqualWithConstantSubstitution a b := bool_decide (a = b);
     contextMatchesRules ctx w := from_option (λ e, eval e ctx) true w;
     evaluate_False e ctx :=
       match e return typeOf e = ExprFalse → eval e ctx = false with
       | ConstFalse => λ _, eq_refl
       | ConstTrue => λ H, ltac:(discriminate H)
       | Has _ => λ H, ltac:(discriminate H)
       end |}.

Definition Item : Type := ResolvedKeybindingItem collaborators.

Definition cmd (c : string) : KeyboundCommand collaborators :=
  @Build_KeyboundCommand collaborators c None.

(** [rule id chords when commands isDefault] *)
Definition rule (id : nat) (cs : list string) (w : option Expr)
    (cmds : list string) (dflt : bool) : Item :=
  @Build_ResolvedKeybindingItem collaborators id cs w (cmd <$> cmds) dflt false.

(** A default binding of "x" on chord "a", the user's removal of it,
    and the user's own binding of "x" on the same chord. *)
Definition defaultX : Item := rule 1 ["a"] (Some (Has "k")) ["x"] true.
Definition removeX : Item := rule 2 ["a"] None ["-x"] false.
Definition userX : Item := rule 3 ["a"] None ["x"] false.

(** A default binding of the empty command and a removal of it. *)
Definition defaultEmpty : Item := rule 1 ["a"] None [EmptyString] true.
Definition removeEmpty : Item := rule 2 ["a"] None ["-"] false.

(** A default without commands. *)
Definition placeholder : Item := rule 1 ["a"] None [] true.

(** A user binding of "y" on chord "a", without predicate. *)
Definition userY : Item := rule 2 ["a"] None ["y"] false.

(** Two-chord rules that share their first chord only. *)
Definition chordAB : Item := rule 1 ["a"; "b"] None ["x"] true.
Definition chordAC : Item := rule 2 ["a"; "c"] None ["y"] false.

(** A guarded two-chord rule, a later single-chord rule on its first
    chord, and a still later two-chord rule on that chord. *)
Definition guardedAB : Item := rule 1 ["a"; "b"] (Some (Has "k")) ["x"] true.
Definition plainA : Item := rule 2 ["a"] None ["y"] true.
Definition plainAC : Item := rule 3 ["a"; "c"] None ["z"] true.

(** Two guarded user bindings of "x", on different chords. *)
Definition guardedA : Item := rule 1 ["a"] (Some (Has "k")) ["x"] false.
Definition guardedB : Item := rule 2 ["b"] (Some (Has "k")) ["x"] false.

(** The rules of the spec's examples: a default binding of "x" on "a"
    under the constant true, the user's removal of it, and a user
    binding of "y" on "a" under the constant true. *)
Definition alwaysX : Item := rule 1 ["a"] (Some ConstTrue) ["x"] true.
Definition removeAlwaysX : Item := rule 2 ["a"] (Some ConstTrue) ["-x"] false.
Definition alwaysY : Item := rule 2 ["a"] (Some ConstTrue) ["y"] false.

(** A removal of "x" without chords, under the constant true, and a
    removal of "x" on chord "b". *)
Definition removeXEverywhere : Item := rule 2 [] (Some ConstTrue) ["-x"] false.
Definition removeXOnB : Item := rule 2 ["b"] None ["-x"] false.

(** A default with two commands, and a default whose single command
    is the empty string. *)
Definition twoCommands : Item := rule 1 ["a"] None ["x"; "y"] true.
Definition unboundB : Item := rule 2 ["b"] None [EmptyString] true.

End Sample.

(** ** Multimaps filled by a loop of pushes

    The removals map, the chord index and the reverse index are all
    built by a loop that pushes the current rule at the end of the array
    stored under one key.  After the loop, the array under a key holds
    the rules pushed there, in the order of the loop. *)

Section Multimap.
Context `{CK : Collaborators} {S : Type}.
Abbreviation Rule := (ResolvedKeybindingItem CK).
Variable get : S → gmap string (list Rule).
Variable step : S → Rule → S.
Variable pushedAt : string → Rule → bool.
Hypothesis step_lookup : ∀ s x k,
  get (step s x) !! k =
    if pushedAt k x then Some (entry (get s) k ++ [x]) else get s !! k.

Lemma foldl_push_lookup (l : list Rule) s k :
  get (foldl step s l) !! k =
    match filter (λ x, pushedAt k x) l with
    | [] => get s !! k
    | f => Some (entry (get s) k ++ f)
    end.
Proof using step_lookup.
  revert s. induction l as [|x l IH]; intros s; [done|].
  simpl. rewrite IH, filter_cons. unfold entry at 1.
  rewrite step_lookup.
  destruct (pushedAt k x); simpl.
  - destruct (filter _ l); [done|]. by rewrite <- app_assoc.
  - done.
Qed.

Lemma foldl_push_entry (l : list Rule) s k :
  entry (get (foldl step s l)) k =
    entry (get s) k ++ filter (λ x, pushedAt k x) l.
Proof using step_lookup.
  unfold entry at 1. rewrite foldl_push_lookup.
  destruct (filter _ l); [by rewrite app_nil_r | done].
Qed.

End Multimap.

(** ** The removal pass *)

Section Removals.
Context `{CK : Collaborators}.
Abbreviation Item := (ResolvedKeybindingItem CK).
Implicit Types (rule r : Item) (rules : list Item).
Implicit Types (removals m : gmap string (list Item)).

Lemma recordRemoval_lookup m rule c :
  recordRemoval m rule !! c =
    if targets c rule then Some (entry m c ++ [rule]) else m !! c.
Proof.
  unfold recordRemoval, targets, removalTarget, entry.
  destruct (commands rule) as [|k [|k' ks]]; try by rewrite bool_decide_eq_false_2.
  destruct (startsWithDash (command k)); [|by rewrite bool_decide_eq_false_2].
  case_bool_decide as Hc; simplify_eq.
  - destruct (m !! substring1 (command k)); by rewrite lookup_insert_eq.
  - destruct (m !! substring1 (command k)); rewrite lookup_insert_ne; congruence.
Qed.

Lemma removalsOf_lookup rules c :
  removalsOf rules !! c =
    match filter (λ r, targets c r) rules with
    | [] => None
    | l => Some l
    end.
Proof.
  unfold removalsOf.
  pose proof (foldl_push_lookup id recordRemoval targets recordRemoval_lookup
                rules ∅ c) as Hl.
  simpl in Hl. rewrite Hl. by destruct (filter _ rules).
Qed.

Lemma targets_directive c rule :
  targets c rule = true → isRemovalDirective rule = true.
Proof.
  unfold targets, isRemovalDirective.
  rewrite !bool_decide_eq_true. intros ->. eauto.
Qed.

Lemma isRemovalDirective_target rule :
  isRemovalDirective rule = true ↔ ∃ c, removalTarget rule = Some c.
Proof. unfold isRemovalDirective. by rewrite bool_decide_eq_true. Qed.

Lemma removalsOf_empty rules :
  removalsOf rules = ∅ ↔ ∀ r, r ∈ rules → isRemovalDirective r = false.
Proof.
  split.
  - intros He r Hr. apply not_true_is_false.
    intros [c Hc]%isRemovalDirective_target.
    pose proof (removalsOf_lookup rules c) as Hl.
    rewrite He, lookup_empty in Hl.
    assert (r ∈ filter (λ r, targets c r) rules) as Hin.
    { apply list_elem_of_filter. split; [|done].
      apply Is_true_true. unfold targets. by apply bool_decide_eq_true. }
    destruct (filter _ rules); [by apply elem_of_nil in Hin | done].
  - intros Hno. apply map_eq. intros c.
    rewrite removalsOf_lookup, lookup_empty.
    destruct (filter _ rules) as [|r l] eqn:Hf; [done|].
    assert (r ∈ filter (λ r, targets c r) rules) as Hin
      by (rewrite Hf; left).
    apply list_elem_of_filter in Hin as [Ht%Is_true_true Hin].
    specialize (Hno r Hin). apply targets_directive in Ht. congruence.
Qed.

Lemma keepOrDrop_survives removals result rule :
  keepOrDrop removals result rule =
    result ++ (if survives removals rule then [rule] else []).
Proof.
  unfold keepOrDrop, survives.
  destruct (commands rule) as [|c [|c' cs]]; try done.
  assert (bool_decide (String.length (command c) = 0)
          = bool_decide (command c = EmptyString)) as ->.
  { apply bool_decide_ext. by destruct (command c). }
  case_bool_decide; [done|].
  destruct (startsWithDash (command c)); [by rewrite app_nil_r|].
  destruct (removals !! command c) as [rs|]; [|done].
  destruct (isDefault rule); simpl; [|done].
  destruct (isRemovedBy rule rs); simpl; [by rewrite app_nil_r | done].
Qed.

Lemma foldl_keepOrDrop removals rules result :
  foldl (keepOrDrop removals) result rules =
    result ++ filter (λ r, survives removals r) rules.
Proof.
  revert result. induction rules as [|rule rules IH]; intros result; simpl.
  - by rewrite app_nil_r.
  - rewrite IH, keepOrDrop_survives, filter_cons.
    destruct (survives removals rule); simpl.
    + by rewrite <- app_assoc.
    + by rewrite app_nil_r.
Qed.

Lemma survives_not_directive removals rule :
  survives removals rule = true → isRemovalDirective rule = false.
Proof.
  unfold survives. intros Hs. apply not_true_is_false.
  intros [c Hc]%isRemovalDirective_target. unfold removalTarget in Hc.
  destruct (commands rule) as [|k [|k' ks]]; try done.
  destruct (startsWithDash (command k)) eqn:Hd; [|done].
  case_bool_decide as He; [|done].
  rewrite He in Hd. done.
Qed.

Lemma survives_empty rule :
  survives ∅ rule = negb (isRemovalDirective rule).
Proof.
  destruct (isRemovalDirective rule) eqn:Hd; simpl.
  - apply not_true_is_false. intros Hs%survives_not_directive. congruence.
  - unfold survives. destruct (commands rule) as [|k [|k' ks]] eqn:Hc; try done.
    case_bool_decide; [done|].
    destruct (startsWithDash (command k)) eqn:Hk; [|by rewrite lookup_empty].
    assert (isRemovalDirective rule = true); [|congruence].
    apply isRemovalDirective_target. unfold removalTarget.
    rewrite Hc, Hk. eauto.
Qed.

(** The removal pass is a filter of its input: a rule is kept exactly
    when the second pass decides so, on either path. *)
Lemma handleRemovals_filter rules :
  handleRemovals rules = filter (λ r, survives (removalsOf rules) r) rules.
Proof.
  unfold handleRemovals. fold (removalsOf rules).
  case_bool_decide as Hsz.
  - apply map_size_empty_iff in Hsz. rewrite Hsz.
    pose proof (proj1 (removalsOf_empty rules) Hsz) as Hno.
    clear Hsz. induction rules as [|r rules IH]; [done|].
    rewrite filter_cons, decide_True.
    + f_equal. apply IH. intros r' Hr'. apply Hno. by right.
    + rewrite survives_empty, Hno; [done | by left].
  - by rewrite foldl_keepOrDrop.
Qed.

Lemma handleRemovals_no_directive rules r :
  r ∈ handleRemovals rules → isRemovalDirective r = false.
Proof.
  rewrite handleRemovals_filter. intros [Hs _]%list_elem_of_filter.
  apply survives_not_directive with (removalsOf rules).
  by apply Is_true_true.
Qed.

Lemma handleRemovals_subset rules r :
  r ∈ handleRemovals rules → r ∈ rules.
Proof. rewrite handleRemovals_filter. by intros [_ ?]%list_elem_of_filter. Qed.

Lemma isRemovedBy_elem rule d l :
  d ∈ l →
  _isTargetedForRemoval rule (chords d !! 0) (chords d !! 1) (when d) = true →
  isRemovedBy rule l = true.
Proof.
  intros Hd Ht. induction l as [|x l IH]; [by apply elem_of_nil in Hd|].
  simpl. apply elem_of_cons in Hd as [<-|Hd].
  - by rewrite Ht.
  - rewrite IH by done.
    by destruct (_isTargetedForRemoval rule (chords x !! 0) _ _).
Qed.

Lemma bindsCommand_inv c rule :
  bindsCommand c rule → ∃ k, commands rule = [k] ∧ command k = c.
Proof.
  unfold bindsCommand. destruct (commands rule) as [|k [|k' ks]]; try done.
  intros [= <-]. eauto.
Qed.

Lemma bindsCommand_target c rule :
  bindsCommand (String "-" c) rule → removalTarget rule = Some c.
Proof.
  intros (k & Hk & Hc)%bindsCommand_inv. unfold removalTarget.
  by rewrite Hk, Hc.
Qed.

(** A directive bound to the single chord [K], without predicate, is
    targeted at every rule whose first chord is [K]. *)
Lemma single_chord_directive_targets rule d K :
  chords d = [K] → when d = None → chords rule !! 0 = Some K →
  _isTargetedForRemoval rule (chords d !! 0) (chords d !! 1) (when d) = true.
Proof.
  intros -> -> HK. unfold _isTargetedForRemoval. simpl.
  rewrite HK, (bool_decide_eq_true_2 (Some K = Some K)) by done.
  by rewrite andb_false_r.
Qed.

(** C1, as the code has it.  Let [rules] contain a removal directive
    [d] whose chord list is [[K]], whose predicate is absent and whose
    single command is '-' followed by [C].  If [C] is not the empty
    string, every default rule binding [C] whose first chord is [K] is
    absent from [handleRemovals rules], whatever its predicate.  If
    [C] does not itself start with '-', every non-default rule of
    [rules] binding [C] on first chord [K] is in the output. *)
Theorem removal_targets_defaults_only rules d K C :
  d ∈ rules → chords d = [K] → when d = None →
  bindsCommand (String "-" C) d →
  (C ≠ EmptyString →
   ∀ r, isDefault r = true → bindsCommand C r → chords r !! 0 = Some K →
        r ∉ handleRemovals rules)
  ∧ (startsWithDash C = false →
     ∀ u, u ∈ rules → isDefault u = false → bindsCommand C u →
          chords u !! 0 = Some K → u ∈ handleRemovals rules).
Proof.
  intros Hd HdK Hdw Hdc. rewrite handleRemovals_filter. split.
  - intros HC r Hdef (k & Hk & <-)%bindsCommand_inv HK
      [Hs%Is_true_true _]%list_elem_of_filter.
    unfold survives in Hs. rewrite Hk in Hs.
    rewrite bool_decide_eq_false_2 in Hs by done.
    destruct (startsWithDash (command k)); [done|].
    rewrite removalsOf_lookup in Hs.
    pose proof (bindsCommand_target _ _ Hdc) as Ht.
    assert (d ∈ filter (λ r, targets (command k) r) rules) as Hin.
    { apply list_elem_of_filter. split; [|done].
      apply Is_true_true. unfold targets. by apply bool_decide_eq_true. }
    destruct (filter _ rules) as [|x l] eqn:Hf; [by apply elem_of_nil in Hin|].
    rewrite Hdef in Hs. cbn [negb orb] in Hs.
    rewrite (isRemovedBy_elem r d (x :: l)) in Hs; [done..|].
    by apply single_chord_directive_targets with K.
  - intros HC u Hu Huser (k & Hk & <-)%bindsCommand_inv HK.
    apply list_elem_of_filter. split; [|done].
    apply Is_true_true. unfold survives. rewrite Hk, HC, Huser.
    case_bool_decide; [done|]. by destruct (removalsOf rules !! command k).
Qed.

(** C8.  The output of the removal pass holds no removal directive,
    so a second pass records no removal, takes the fast path, and
    returns its input. *)
Theorem handleRemovals_idempotent rules :
  removalsOf (handleRemovals rules) = ∅
  ∧ handleRemovals (handleRemovals rules) = handleRemovals rules.
Proof.
  assert (removalsOf (handleRemovals rules) = ∅) as He.
  { apply removalsOf_empty. apply handleRemovals_no_directive. }
  split; [done|].
  unfold handleRemovals at 1. fold (removalsOf (handleRemovals rules)).
  rewrite He. by rewrite bool_decide_eq_true_2 by apply map_size_empty.
Qed.

Lemma passesThrough_survives removals rule :
  passesThrough rule = true → survives removals rule = true.
Proof.
  unfold passesThrough, survives.
  destruct (commands rule) as [|k [|k' ks]]; try done.
  by intros ->.
Qed.

Lemma filter_filter_implied {A} (P Q : A → bool) (l : list A) :
  (∀ x, P x = true → Q x = true) →
  filter (λ x, P x) (filter (λ x, Q x) l) = filter (λ x, P x) l.
Proof.
  intros HPQ. induction l as [|x l IH]; [done|].
  rewrite (filter_cons (λ x, Q x)), (filter_cons (λ x, P x) x l).
  destruct (P x) eqn:HP; simpl.
  - rewrite (HPQ x HP). simpl. rewrite filter_cons, HP. simpl. by f_equal.
  - destruct (Q x); simpl; [|done]. rewrite filter_cons, HP. done.
Qed.

Lemma handleRemovals_passesThrough rules :
  filter (λ r, passesThrough r) (handleRemovals rules)
  = filter (λ r, passesThrough r) rules.
Proof.
  rewrite handleRemovals_filter.
  apply filter_filter_implied. intros x. apply passesThrough_survives.
Qed.

End Removals.

(** ** The loops that run backwards *)

Section Loops.
Context `{CK : Collaborators}.
Abbreviation Item := (ResolvedKeybindingItem CK).
Implicit Types (items : list Item) (this : KeybindingResolver CK).

Lemma scanBackwards_take accepts items n :
  n ≤ length items →
  scanBackwards accepts items n = last (filter (λ x, accepts x) (take n items)).
Proof.
  induction n as [|i IH]; intros Hn; [by rewrite take_0|].
  simpl. destruct (lookup_lt_is_Some_2 items i) as [x Hx]; [lia|].
  rewrite Hx, (take_S_r _ _ _ Hx), filter_app, filter_cons, filter_nil.
  destruct (accepts x); simpl.
  - by rewrite last_snoc.
  - rewrite app_nil_r. apply IH. lia.
Qed.

(** Scanning from the last entry down returns the last entry that is
    accepted. *)
Lemma scanBackwards_last accepts items :
  scanBackwards accepts items (length items)
  = last (filter (λ x, accepts x) items).
Proof. by rewrite scanBackwards_take, firstn_all. Qed.

Lemma _findCommand_last context items :
  _findCommand context items = last (filter (λ x, satisfiedIn context x) items).
Proof. apply scanBackwards_last. Qed.

Lemma copyBackwards_take items n result :
  n ≤ length items →
  copyBackwards items n result = result ++ reverse (take n items).
Proof.
  revert result. induction n as [|i IH]; intros result Hn.
  - by rewrite take_0, app_nil_r.
  - simpl. destruct (lookup_lt_is_Some_2 items i) as [x Hx]; [lia|].
    rewrite Hx, (take_S_r _ _ _ Hx), reverse_snoc, IH by lia.
    by rewrite <- app_assoc.
Qed.

Lemma shadowConflicts_take item conflicts n this :
  n ≤ length conflicts →
  shadowConflicts item conflicts n this
  = foldr (shadowConflict item) this (take n conflicts).
Proof.
  revert this. induction n as [|i IH]; intros this Hn; [by rewrite take_0|].
  simpl. destruct (lookup_lt_is_Some_2 conflicts i) as [x Hx]; [lia|].
  rewrite Hx, (take_S_r _ _ _ Hx), foldr_app, IH by lia. done.
Qed.

Lemma shadowConflicts_foldr item conflicts this :
  shadowConflicts item conflicts (length conflicts) this
  = foldr (shadowConflict item) this conflicts.
Proof. by rewrite shadowConflicts_take, firstn_all. Qed.

Lemma lookupKeybindings_reverse this commandId :
  lookupKeybindings this commandId
  = reverse (entry (_lookupMap this) commandId).
Proof.
  unfold lookupKeybindings, entry.
  destruct (_lookupMap this !! commandId) as [items|]; [|done]. simpl.
  case_bool_decide as Hl.
  - by apply nil_length_inv in Hl as ->.
  - by rewrite copyBackwards_take, firstn_all.
Qed.

Lemma resolveCandidates_filter this chord keypress candidates :
  _map this !! chord = Some candidates →
  resolveCandidates this (Some chord) keypress
  = Some (filter (λ r, chords r !! 1 = Some keypress) candidates).
Proof.
  intros Hc. unfold resolveCandidates. rewrite Hc. f_equal.
  set (push := λ (lookupMap : list Item) (candidate : Item),
         if bool_decide (chords candidate !! 1 = Some keypress)
         then lookupMap ++ [candidate] else lookupMap).
  assert (∀ acc, foldl push acc candidates
            = acc ++ filter (λ r, chords r !! 1 = Some keypress) candidates)
    as Hfold; [|apply Hfold].
  clear Hc. induction candidates as [|x l IH]; intros acc; simpl.
  - by rewrite app_nil_r.
  - rewrite IH, filter_cons. unfold push at 1. case_bool_decide.
    + rewrite decide_True by done. by rewrite <- app_assoc.
    + rewrite decide_False by done. done.
Qed.

End Loops.

(** ** The chord index *)

Section ChordIndex.
Context `{CK : Collaborators}.
Abbreviation Item := (ResolvedKeybindingItem CK).
Implicit Types (this : KeybindingResolver CK) (item k r : Item).
Implicit Types (rules : list Item).

Lemma _addToLookupMap_frame item this :
  sameButLookupMap this (_addToLookupMap item this).
Proof.
  unfold _addToLookupMap, sameButLookupMap.
  destruct (commands item) as [|c [|c' cs]]; try done.
  by destruct (_lookupMap this !! command c).
Qed.

Lemma _removeFromLookupMap_frame item this :
  sameButLookupMap this (_removeFromLookupMap item this).
Proof.
  unfold _removeFromLookupMap, sameButLookupMap.
  destruct (commands item) as [|c [|c' cs]]; try done.
  by destruct (_lookupMap this !! command c).
Qed.

Lemma shadowConflict_frame item conflict this :
  sameButLookupMap this (shadowConflict item conflict this).
Proof.
  unfold shadowConflict.
  repeat match goal with |- context [if ?b then _ else _] => destruct b end;
    try done; apply _removeFromLookupMap_frame.
Qed.

Lemma foldr_shadowConflict_frame item conflicts this :
  sameButLookupMap this (foldr (shadowConflict item) this conflicts).
Proof.
  induction conflicts as [|x l IH]; [done|]. simpl.
  destruct IH as (?&?&?&?).
  destruct (shadowConflict_frame item x (foldr (shadowConflict item) this l))
    as (?&?&?&?).
  unfold sameButLookupMap. split_and!; congruence.
Qed.

Lemma _addKeyPress_map keypress item this :
  _map (_addKeyPress keypress item this)
  = <[keypress := entry (_map this) keypress ++ [item]]> (_map this).
Proof.
  unfold _addKeyPress, entry.
  destruct (_map this !! keypress) as [conflicts|]; simpl.
  - rewrite shadowConflicts_foldr.
    destruct (_addToLookupMap_frame item
      (setMap (foldr (shadowConflict item) this conflicts)
         (<[keypress:=conflicts ++ [item]]>
            (_map (foldr (shadowConflict item) this conflicts))))) as [-> _].
    simpl.
    by destruct (foldr_shadowConflict_frame item conflicts this) as [-> _].
  - by destruct (_addToLookupMap_frame item
      (setMap this (<[keypress:=[item]]> (_map this)))) as [-> _].
Qed.

Lemma _addKeyPress_keybindings keypress item this :
  _keybindings (_addKeyPress keypress item this) = _keybindings this
  ∧ _defaultKeybindings (_addKeyPress keypress item this)
    = _defaultKeybindings this
  ∧ _defaultBoundCommands (_addKeyPress keypress item this)
    = _defaultBoundCommands this.
Proof.
  unfold _addKeyPress.
  destruct (_map this !! keypress) as [conflicts|].
  - rewrite shadowConflicts_foldr.
    destruct (_addToLookupMap_frame item
      (setMap (foldr (shadowConflict item) this conflicts)
         (<[keypress:=conflicts ++ [item]]>
            (_map (foldr (shadowConflict item) this conflicts)))))
      as (_ & -> & -> & ->).
    simpl.
    by destruct (foldr_shadowConflict_frame item conflicts this)
      as (_ & -> & -> & ->).
  - by destruct (_addToLookupMap_frame item
      (setMap this (<[keypress:=[item]]> (_map this)))) as (_ & -> & -> & ->).
Qed.

Lemma indexRule_cases this k :
  (indexed k = false ∧ indexRule this k = this)
  ∨ (∃ keypress, indexed k = true ∧ chords k !! 0 = Some keypress
       ∧ indexRule this k = _addKeyPress keypress k this).
Proof.
  unfold indexRule, indexed.
  destruct (chords k) as [|keypress cs].
  - left. split; [|done]. rewrite bool_decide_eq_false_2; [done|]. by intros [].
  - rewrite bool_decide_eq_true_2 by done. simpl.
    destruct (whenHasType (when k) ExprFalse); [by left|right; eauto].
Qed.

Lemma indexRule_map_lookup this k key :
  _map (indexRule this k) !! key =
    if indexedAt key k then Some (entry (_map this) key ++ [k])
    else _map this !! key.
Proof.
  unfold indexedAt.
  destruct (indexRule_cases this k) as [[Hi ->]|(keypress & Hi & Hk & ->)].
  - unfold indexed in Hi. apply andb_false_iff in Hi as [Hi| ->];
      [|by rewrite andb_false_r].
    apply bool_decide_eq_false in Hi.
    rewrite bool_decide_eq_false_2; [done|].
    destruct (chords k); [done|]. by destruct Hi.
  - apply andb_true_iff in Hi as [_ ->]. rewrite andb_true_r, Hk.
    rewrite _addKeyPress_map.
    case_bool_decide as Hkey; simplify_eq.
    + by rewrite lookup_insert_eq.
    + rewrite lookup_insert_ne; congruence.
Qed.

Lemma foldl_indexRule_keybindings rules this :
  _keybindings (foldl indexRule this rules) = _keybindings this
  ∧ _defaultKeybindings (foldl indexRule this rules) = _defaultKeybindings this
  ∧ _defaultBoundCommands (foldl indexRule this rules)
    = _defaultBoundCommands this.
Proof.
  revert this. induction rules as [|k rules IH]; intros this; [done|].
  simpl. destruct (IH (indexRule this k)) as (-> & -> & ->).
  destruct (indexRule_cases this k) as [[_ ->]|(keypress & _ & _ & ->)];
    [done|]. apply _addKeyPress_keybindings.
Qed.

Lemma getKeybindings_new defaults overrides :
  getKeybindings (newKeybindingResolver defaults overrides)
  = handleRemovals (defaults ++ overrides).
Proof.
  unfold getKeybindings, newKeybindingResolver.
  by destruct (foldl_indexRule_keybindings
    (handleRemovals (([] ++ defaults) ++ overrides))
    {| _defaultKeybindings := defaults;
       _keybindings := handleRemovals (([] ++ defaults) ++ overrides);
       _defaultBoundCommands :=
         foldl (λ m defaultKeybinding,
                  foldl recordDefaultBound m (commands defaultKeybinding))
               ∅ defaults;
       _map := ∅; _lookupMap := ∅ |}) as (-> & _).
Qed.

(** The chord index of a constructed resolver: under each key, the
    merged rules admitted under that key, in the order of the merged
    list; no entry when there is none. *)
Lemma _map_new defaults overrides key :
  _map (newKeybindingResolver defaults overrides) !! key =
    match filter (λ r, indexedAt key r)
            (getKeybindings (newKeybindingResolver defaults overrides)) with
    | [] => None
    | l => Some l
    end.
Proof.
  rewrite getKeybindings_new. unfold newKeybindingResolver. simpl.
  rewrite (foldl_push_lookup _map indexRule indexedAt indexRule_map_lookup).
  simpl. rewrite lookup_empty. unfold entry. rewrite lookup_empty. simpl.
  by destruct (filter _ _).
Qed.

Lemma resolve_last this context currentChord keypress :
  resolve this context currentChord keypress =
    resolveResult currentChord <$>
      (resolveCandidates this currentChord keypress
         ≫= λ l, last (filter (λ r, satisfiedIn context r) l)).
Proof.
  unfold resolve.
  destruct (resolveCandidates this currentChord keypress) as [l|]; [|done].
  simpl. rewrite _findCommand_last. by destruct (last _).
Qed.

(** Resolution on a constructed resolver, read off the merged list:
    the last candidate whose predicate holds in the context. *)
Lemma resolve_new defaults overrides context currentChord keypress :
  resolve (newKeybindingResolver defaults overrides)
    context currentChord keypress =
    resolveResult currentChord <$>
      last (filter (λ r, satisfiedIn context r)
              (candidatesOf
                 (getKeybindings (newKeybindingResolver defaults overrides))
                 currentChord keypress)).
Proof.
  rewrite resolve_last. f_equal. unfold candidatesOf.
  destruct currentChord as [chord|].
  - destruct (_map (newKeybindingResolver defaults overrides) !! chord)
      as [candidates|] eqn:Hm.
    + rewrite (resolveCandidates_filter _ _ _ _ Hm). simpl.
      rewrite _map_new in Hm.
      destruct (filter (λ r, indexedAt chord r) _); by simplify_eq.
    + unfold resolveCandidates. rewrite Hm. simpl.
      rewrite _map_new in Hm.
      destruct (filter (λ r, indexedAt chord r) _); by simplify_eq.
  - unfold resolveCandidates. rewrite _map_new.
    by destruct (filter (λ r, indexedAt keypress r) _).
Qed.

End ChordIndex.

(** ** Resolution *)

Section Resolution.
Context `{CK : Collaborators}.
Abbreviation Item := (ResolvedKeybindingItem CK).
Implicit Types (this : KeybindingResolver CK) (item k r : Item).
Implicit Types (rules : list Item) (context : IContext).

Lemma filter_none {A} (P : A → Prop) `{!∀ x, Decision (P x)} (l : list A) :
  (∀ y, y ∈ l → ¬ P y) → filter P l = [].
Proof.
  induction l as [|y l IH]; intros Hno; [done|].
  rewrite filter_cons_False by (apply Hno; left).
  apply IH. intros z Hz. apply Hno. by right.
Qed.

Lemma last_filter_app_cons {A} (P : A → Prop) `{!∀ x, Decision (P x)}
    (pre post : list A) (x : A) :
  P x → (∀ y, y ∈ post → ¬ P y) →
  last (filter P (pre ++ x :: post)) = Some x.
Proof.
  intros Hx Hpost.
  rewrite filter_app, filter_cons_True, (filter_none P post) by done.
  apply last_snoc.
Qed.

Lemma last_all_same {A} (l : list A) (r : A) :
  r ∈ l → (∀ x, x ∈ l → x = r) → last l = Some r.
Proof.
  intros Hr Hall. destruct (last l) as [x|] eqn:Hl.
  - f_equal. apply Hall. by apply last_Some_elem_of.
  - apply last_None in Hl as ->. by apply elem_of_nil in Hr.
Qed.

Lemma last_filter_head_reverse {A} (P : A → Prop) `{!∀ x, Decision (P x)}
    (l : list A) :
  last (filter P l) = head (filter P (reverse l)).
Proof. by rewrite filter_reverse, head_reverse. Qed.

Lemma satisfiedIn_not_False context r :
  satisfiedIn context r = true → whenHasType (when r) ExprFalse = false.
Proof.
  unfold satisfiedIn, _contextMatchesRules, whenHasType.
  destruct (when r) as [e|]; [|done]. intros He.
  apply bool_decide_eq_false. intros Ht.
  rewrite (evaluate_False e context Ht) in He. done.
Qed.

Lemma indexedAt_true key r :
  indexedAt key r = true
  ↔ chords r !! 0 = Some key ∧ whenHasType (when r) ExprFalse = false.
Proof.
  unfold indexedAt.
  rewrite andb_true_iff, bool_decide_eq_true, negb_true_iff. done.
Qed.

Lemma satisfied_indexedAt context key r :
  chords r !! 0 = Some key → satisfiedIn context r = true →
  indexedAt key r = true.
Proof.
  intros Hk Hs. apply indexedAt_true. split; [done|].
  by apply satisfiedIn_not_False with context.
Qed.

(** C2.  Whatever the chord index holds under a key, [resolve] returns
    the outcome of the first candidate satisfied by the context in the
    scan from the most recently inserted candidate (the end of the
    array) to the least recently inserted one; in mid-chord state the
    candidates are those under the current chord whose second chord is
    the key pressed.  On a constructed resolver, of two merged rules
    with the same first chord that are both satisfied, the later one
    is returned, unless a rule still later in the list is satisfied
    on that chord too. *)
Theorem resolve_most_recent_satisfied :
  (∀ this context keypress candidates,
     _map this !! keypress = Some candidates →
     _findCommand context candidates
       = head (filter (λ r, satisfiedIn context r) (reverse candidates))
     ∧ resolve this context None keypress
       = resolveResult None <$>
           head (filter (λ r, satisfiedIn context r) (reverse candidates)))
  ∧ (∀ this context chord keypress candidates,
       _map this !! chord = Some candidates →
       resolve this context (Some chord) keypress
       = resolveResult (Some chord) <$>
           head (filter (λ r, satisfiedIn context r)
                   (reverse (filter (λ r, chords r !! 1 = Some keypress)
                               candidates))))
  ∧ (∀ defaults overrides context keypress l1 r1 l2 r2 l3,
       getKeybindings (newKeybindingResolver defaults overrides)
         = l1 ++ r1 :: l2 ++ r2 :: l3 →
       chords r1 !! 0 = Some keypress → chords r2 !! 0 = Some keypress →
       satisfiedIn context r1 = true → satisfiedIn context r2 = true →
       (∀ x, x ∈ l3 → chords x !! 0 = Some keypress →
             satisfiedIn context x = false) →
       resolve (newKeybindingResolver defaults overrides)
         context None keypress
       = Some (resolveResult None r2)).
Proof.
  split_and!.
  - intros this context keypress candidates Hm.
    rewrite resolve_last, _findCommand_last. unfold resolveCandidates.
    rewrite Hm. simpl. by rewrite last_filter_head_reverse.
  - intros this context chord keypress candidates Hm.
    rewrite resolve_last, (resolveCandidates_filter _ _ _ _ Hm). simpl.
    by rewrite last_filter_head_reverse.
  - intros defaults overrides context keypress l1 r1 l2 r2 l3
      Hk _ Hc2 _ Hs2 Hl3.
    rewrite resolve_new, Hk. unfold candidatesOf.
    rewrite list_filter_filter.
    replace (l1 ++ r1 :: l2 ++ r2 :: l3) with ((l1 ++ r1 :: l2) ++ r2 :: l3)
      by by rewrite <- app_assoc.
    rewrite last_filter_app_cons; [done| |].
    + split; [by apply Is_true_true|].
      apply Is_true_true. by apply satisfied_indexedAt with context.
    + intros y Hy [Hsy%Is_true_true [Hky _]%Is_true_true%indexedAt_true].
      rewrite (Hl3 y Hy Hky) in Hsy. done.
Qed.

(** C4.  On a constructed resolver whose only merged rule with first
    chord [K1] is the two-chord rule [r] on [[K1; K2]], satisfied by
    the context: pressing [K1] in fresh state enters the multi-chord
    with no commands; pressing [K2] after [K1] returns the commands of
    [r] and leaves the multi-chord; pressing any other key after [K1]
    returns no match. *)
Theorem multi_chord_flow defaults overrides context r K1 K2 :
  r ∈ getKeybindings (newKeybindingResolver defaults overrides) →
  (∀ x, x ∈ getKeybindings (newKeybindingResolver defaults overrides) →
        chords x !! 0 = Some K1 → x = r) →
  chords r = [K1; K2] →
  satisfiedIn context r = true →
  resolve (newKeybindingResolver defaults overrides) context None K1
    = Some {| enterMultiChord := true; leaveMultiChord := false;
              resultCommands := []; resultBubble := false |}
  ∧ resolve (newKeybindingResolver defaults overrides) context (Some K1) K2
    = Some {| enterMultiChord := false; leaveMultiChord := true;
              resultCommands := commands r; resultBubble := bubble r |}
  ∧ (∀ K3, K3 ≠ K2 →
       resolve (newKeybindingResolver defaults overrides) context (Some K1) K3
       = None).
Proof.
  set (R := newKeybindingResolver defaults overrides).
  intros Hr Honly Hc Hs.
  assert (chords r !! 0 = Some K1) as H0 by by rewrite Hc.
  assert (chords r !! 1 = Some K2) as H1 by by rewrite Hc.
  pose proof (satisfied_indexedAt _ _ _ H0 Hs) as Hi.
  assert (∀ x, x ∈ filter (λ r, indexedAt K1 r) (getKeybindings R) → x = r)
    as Hall.
  { intros x [[Hx _]%Is_true_true%indexedAt_true Hin]%list_elem_of_filter.
    by apply Honly. }
  assert (r ∈ filter (λ r, indexedAt K1 r) (getKeybindings R)) as Hin.
  { apply list_elem_of_filter. split; [by apply Is_true_true | done]. }
  split_and!.
  - unfold R. rewrite resolve_new. fold R. unfold candidatesOf.
    rewrite (last_all_same _ r).
    + simpl. unfold resolveResult. by rewrite Hc.
    + apply list_elem_of_filter. split; [by apply Is_true_true | done].
    + intros x [_ Hx]%list_elem_of_filter. by apply Hall.
  - unfold R. rewrite resolve_new. fold R. unfold candidatesOf.
    rewrite (last_all_same _ r).
    + simpl. unfold resolveResult. by rewrite Hc.
    + apply list_elem_of_filter. split; [by apply Is_true_true|].
      by apply list_elem_of_filter.
    + intros x [_ [_ Hx]%list_elem_of_filter]%list_elem_of_filter.
      by apply Hall.
  - intros K3 HK3. unfold R. rewrite resolve_new. fold R. unfold candidatesOf.
    rewrite (filter_none (λ r, chords r !! 1 = Some K3)); [done|].
    intros y Hy Hy3. apply Hall in Hy as ->. congruence.
Qed.

(** C9.  In mid-chord state every outcome has [enterMultiChord]
    false; an outcome with [enterMultiChord] true comes from the fresh
    state, and it carries no commands and does not bubble. *)
Theorem enter_multi_chord_only_when_fresh this context currentChord keypress res :
  resolve this context currentChord keypress = Some res →
  (is_Some currentChord → enterMultiChord res = false)
  ∧ (enterMultiChord res = true →
     currentChord = None ∧ leaveMultiChord res = false
     ∧ resultCommands res = [] ∧ resultBubble res = false).
Proof.
  unfold resolve.
  destruct (resolveCandidates this currentChord keypress) as [l|]; [|done].
  destruct (_findCommand context l) as [result|]; [|done].
  intros [= <-]. unfold resolveResult.
  destruct currentChord as [chord|]; simpl.
  - split; [done|]. intros [=].
  - split; [by intros [? [=]]|].
    by destruct (bool_decide (1 < length (chords result))).
Qed.

Lemma _map_new_entry defaults overrides key :
  entry (_map (newKeybindingResolver defaults overrides)) key
  = filter (λ r, indexedAt key r)
      (getKeybindings (newKeybindingResolver defaults overrides)).
Proof. unfold entry. rewrite _map_new. by destruct (filter _ _). Qed.

Lemma zero_commands_survive rules k :
  k ∈ rules → commands k = [] → k ∈ handleRemovals rules.
Proof.
  intros Hk Hc. rewrite handleRemovals_filter.
  apply list_elem_of_filter. split; [|done].
  apply Is_true_true. unfold survives. by rewrite Hc.
Qed.

(** C10.  A merged rule is in the chord index, under its first chord,
    exactly when it has a chord and its predicate is not the constant
    false; the number of its commands plays no part.  So a rule
    without commands given to the constructor is indexed, and when it
    is the rule [resolve] picks for a single-chord keypress the
    outcome has an empty command list and [enterMultiChord] false. *)
Theorem zero_command_rule_is_indexed defaults overrides :
  (∀ key r,
     r ∈ entry (_map (newKeybindingResolver defaults overrides)) key
     ↔ r ∈ getKeybindings (newKeybindingResolver defaults overrides)
       ∧ chords r !! 0 = Some key
       ∧ whenHasType (when r) ExprFalse = false)
  ∧ (∀ key k,
       k ∈ defaults ++ overrides → commands k = [] →
       chords k !! 0 = Some key → whenHasType (when k) ExprFalse = false →
       k ∈ entry (_map (newKeybindingResolver defaults overrides)) key)
  ∧ (∀ context key pre k post,
       getKeybindings (newKeybindingResolver defaults overrides)
         = pre ++ k :: post →
       commands k = [] → chords k = [key] → satisfiedIn context k = true →
       (∀ x, x ∈ post → chords x !! 0 = Some key →
             satisfiedIn context x = false) →
       resolve (newKeybindingResolver defaults overrides) context None key
       = Some {| enterMultiChord := false; leaveMultiChord := false;
                 resultCommands := []; resultBubble := bubble k |}).
Proof.
  assert (∀ key r,
     r ∈ entry (_map (newKeybindingResolver defaults overrides)) key
     ↔ r ∈ getKeybindings (newKeybindingResolver defaults overrides)
       ∧ chords r !! 0 = Some key
       ∧ whenHasType (when r) ExprFalse = false) as Hentry.
  { intros key r. rewrite _map_new_entry, list_elem_of_filter.
    rewrite Is_true_true, indexedAt_true. tauto. }
  split_and!; [done| |].
  - intros key k Hk Hc H0 Hw. apply Hentry. split_and!; [|done..].
    rewrite getKeybindings_new. by apply zero_commands_survive.
  - intros context key pre k post Hm Hc Hch Hs Hpost.
    rewrite resolve_new, Hm. unfold candidatesOf.
    rewrite list_filter_filter, last_filter_app_cons.
    + simpl. unfold resolveResult. by rewrite Hc, Hch.
    + split; [by apply Is_true_true|]. apply Is_true_true.
      apply satisfied_indexedAt with context; [by rewrite Hch | done].
    + intros y Hy [Hsy%Is_true_true [Hky _]%Is_true_true%indexedAt_true].
      rewrite (Hpost y Hy Hky) in Hsy. done.
Qed.

End Resolution.

(** ** The reverse index *)

Section ReverseIndex.
Context `{CK : Collaborators}.
Abbreviation Item := (ResolvedKeybindingItem CK).
Implicit Types (this : KeybindingResolver CK) (item k r x : Item).
Implicit Types (rules arr : list Item).

Lemma bindsCommand_iff c item :
  bindsCommand c item
  ↔ ∃ kc : KeyboundCommand CK, commands item = [kc] ∧ command kc = c.
Proof.
  unfold bindsCommand. destruct (commands item) as [|kc [|kc' ks]]; simpl.
  - split; [done | by intros (? & ? & ?)].
  - split; [intros [= <-]; eauto | by intros (? & [= <-] & <-)].
  - split; [done | by intros (? & ? & ?)].
Qed.

Lemma _addToLookupMap_entry item this c :
  entry (_lookupMap (_addToLookupMap item this)) c
  = entry (_lookupMap this) c
    ++ (if bool_decide (bindsCommand c item) then [item] else []).
Proof.
  unfold _addToLookupMap, entry.
  destruct (commands item) as [|kc [|kc' ks]] eqn:Hc.
  - rewrite bool_decide_eq_false_2, app_nil_r; [done|].
    intros (? & ? & ?)%bindsCommand_iff. congruence.
  - destruct (decide (command kc = c)) as [<-|Hne].
    + rewrite bool_decide_eq_true_2 by (apply bindsCommand_iff; eauto).
      destruct (_lookupMap this !! command kc); simpl;
        by rewrite lookup_insert_eq.
    + rewrite bool_decide_eq_false_2, app_nil_r.
      * destruct (_lookupMap this !! command kc); simpl;
          by rewrite lookup_insert_ne.
      * intros (? & ? & ?)%bindsCommand_iff. congruence.
  - rewrite bool_decide_eq_false_2, app_nil_r; [done|].
    intros (? & ? & ?)%bindsCommand_iff. congruence.
Qed.

Lemma _removeFromLookupMap_entry item this c :
  entry (_lookupMap (_removeFromLookupMap item this)) c
  = if bool_decide (bindsCommand c item)
    then spliceFirst item (entry (_lookupMap this) c)
    else entry (_lookupMap this) c.
Proof.
  unfold _removeFromLookupMap, entry.
  destruct (commands item) as [|kc [|kc' ks]] eqn:Hc.
  - rewrite bool_decide_eq_false_2; [done|].
    intros (? & ? & ?)%bindsCommand_iff. congruence.
  - destruct (decide (command kc = c)) as [<-|Hne].
    + rewrite bool_decide_eq_true_2 by (apply bindsCommand_iff; eauto).
      destruct (_lookupMap this !! command kc) eqn:Hl; simpl;
        [|by rewrite Hl].
      by rewrite lookup_insert_eq.
    + rewrite bool_decide_eq_false_2.
      * destruct (_lookupMap this !! command kc); simpl; [|done].
        by rewrite lookup_insert_ne.
      * intros (? & ? & ?)%bindsCommand_iff. congruence.
  - rewrite bool_decide_eq_false_2; [done|].
    intros (? & ? & ?)%bindsCommand_iff. congruence.
Qed.

Lemma spliceFirst_sublist item arr : spliceFirst item arr `sublist_of` arr.
Proof.
  induction arr as [|x arr IH]; simpl; [done|].
  destruct (sameObject x item).
  - by apply sublist_cons.
  - by apply sublist_skip.
Qed.

Lemma shadowConflict_cases item conflict this :
  shadowConflict item conflict this = this
  ∨ shadowConflict item conflict this = _removeFromLookupMap conflict this.
Proof.
  unfold shadowConflict.
  repeat match goal with |- context [if ?b then _ else _] => destruct b end;
    auto.
Qed.

Lemma shadowConflict_sublist item conflict this c :
  entry (_lookupMap (shadowConflict item conflict this)) c
    `sublist_of` entry (_lookupMap this) c.
Proof.
  destruct (shadowConflict_cases item conflict this) as [-> | ->]; [done|].
  rewrite _removeFromLookupMap_entry.
  case_bool_decide; [apply spliceFirst_sublist | done].
Qed.

Lemma foldr_shadowConflict_sublist item conflicts this c :
  entry (_lookupMap (foldr (shadowConflict item) this conflicts)) c
    `sublist_of` entry (_lookupMap this) c.
Proof.
  induction conflicts as [|x l IH]; simpl; [done|].
  etrans; [apply shadowConflict_sublist | apply IH].
Qed.

Lemma _addKeyPress_lookup_entry keypress item this c :
  entry (_lookupMap (_addKeyPress keypress item this)) c
  = entry (_lookupMap
             (foldr (shadowConflict item) this (entry (_map this) keypress))) c
    ++ (if bool_decide (bindsCommand c item) then [item] else []).
Proof.
  unfold _addKeyPress. unfold entry at 3.
  destruct (_map this !! keypress) as [conflicts|]; simpl.
  - by rewrite shadowConflicts_foldr, _addToLookupMap_entry.
  - by rewrite _addToLookupMap_entry.
Qed.

Lemma indexRule_lookup_sublist this k c :
  entry (_lookupMap (indexRule this k)) c
    `sublist_of`
      entry (_lookupMap this) c
      ++ (if indexed k && bool_decide (bindsCommand c k) then [k] else []).
Proof.
  destruct (indexRule_cases this k) as [[-> ->]|(keypress & -> & _ & ->)].
  - simpl. by rewrite app_nil_r.
  - simpl. rewrite _addKeyPress_lookup_entry.
    apply sublist_app; [apply foldr_shadowConflict_sublist | done].
Qed.

(** Every entry of the reverse index is a processed rule that was
    admitted to the chord index and binds exactly that command. *)
Lemma foldl_indexRule_lookup_elem rules this c x :
  x ∈ entry (_lookupMap (foldl indexRule this rules)) c →
  x ∈ entry (_lookupMap this) c
  ∨ (x ∈ rules ∧ indexed x = true ∧ bindsCommand c x).
Proof.
  revert this. induction rules as [|k rules IH]; intros this; [by left|].
  simpl. intros [Hx|(Hx & Hi & Hb)]%IH.
  - pose proof (elem_of_sublist _ _ _ Hx (indexRule_lookup_sublist this k c))
      as [Hin|Hin]%elem_of_app; [by left|].
    destruct (indexed k) eqn:Hk; simpl in Hin; [|by apply elem_of_nil in Hin].
    case_bool_decide; [|by apply elem_of_nil in Hin].
    apply list_elem_of_singleton in Hin as ->.
    right. split_and!; [by left | done..].
  - right. split_and!; [by right | done..].
Qed.

Lemma _lookupMap_new_elem defaults overrides c x :
  x ∈ entry (_lookupMap (newKeybindingResolver defaults overrides)) c →
  x ∈ getKeybindings (newKeybindingResolver defaults overrides)
  ∧ indexed x = true ∧ bindsCommand c x.
Proof.
  rewrite getKeybindings_new. unfold newKeybindingResolver.
  intros [Hx|Hx]%foldl_indexRule_lookup_elem; [|done].
  simpl in Hx. unfold entry in Hx. rewrite lookup_empty in Hx.
  by apply elem_of_nil in Hx.
Qed.

(** C7.  Rules with no command, with several commands, or with the
    empty string as their command go through the removal pass
    untouched: the pass keeps all of them, in their order.  A removal
    directive is never in the output of the pass, so none is among
    the merged rules of a resolver, in its chord index or in its
    reverse index. *)
Theorem removal_pass_keeps_placeholders_drops_directives :
  (∀ rules,
     filter (λ r, passesThrough r) (handleRemovals rules)
     = filter (λ r, passesThrough r) rules)
  ∧ (∀ rules r, r ∈ rules → passesThrough r = true → r ∈ handleRemovals rules)
  ∧ (∀ rules r, isRemovalDirective r = true → r ∉ handleRemovals rules)
  ∧ (∀ defaults overrides r,
       isRemovalDirective r = true →
       (r ∉ getKeybindings (newKeybindingResolver defaults overrides))
       ∧ (∀ key, r ∉ entry (_map (newKeybindingResolver defaults overrides)) key)
       ∧ (∀ c, r ∉ entry (_lookupMap (newKeybindingResolver defaults overrides)) c)).
Proof.
  split_and!.
  - apply handleRemovals_passesThrough.
  - intros rules r Hr Hp. rewrite handleRemovals_filter.
    apply list_elem_of_filter. split; [|done].
    apply Is_true_true. by apply passesThrough_survives.
  - intros rules r Hd Hr%handleRemovals_no_directive. congruence.
  - intros defaults overrides r Hd.
    assert (r ∉ getKeybindings (newKeybindingResolver defaults overrides))
      as Hnot.
    { rewrite getKeybindings_new.
      intros Hr%handleRemovals_no_directive. congruence. }
    split_and!; [done| |].
    + intros key. rewrite _map_new_entry.
      by intros [_ ?]%list_elem_of_filter.
    + intros c Hr. apply _lookupMap_new_elem in Hr. by destruct Hr.
Qed.

(** *** Counting an object in the reverse index *)

Lemma occurrences_app id arr1 arr2 :
  occurrences id (arr1 ++ arr2) = occurrences id arr1 + occurrences id arr2.
Proof. unfold occurrences. by rewrite filter_app, length_app. Qed.

Lemma occurrences_sublist id arr1 arr2 :
  arr1 `sublist_of` arr2 → occurrences id arr1 ≤ occurrences id arr2.
Proof.
  unfold occurrences. induction 1 as [|x l1 l2 _ IH|x l1 l2 _ IH]; [done|..].
  - rewrite !filter_cons. case_decide; simpl; lia.
  - rewrite filter_cons. case_decide; simpl; lia.
Qed.

Lemma occurrences_spliceFirst item arr :
  occurrences (ref item) (spliceFirst item arr)
  = pred (occurrences (ref item) arr).
Proof.
  unfold occurrences. induction arr as [|x arr IH]; simpl; [done|].
  unfold sameObject. case_bool_decide as Hx.
  - by rewrite filter_cons_True.
  - by rewrite !filter_cons_False.
Qed.

Lemma occurrences_none id arr :
  occurrences id arr = 0 ↔ ∀ x, x ∈ arr → ref x ≠ id.
Proof.
  unfold occurrences. split.
  - intros Hz%nil_length_inv x Hx Hid.
    by apply (filter_nil_not_elem_of (λ x, ref x = id) arr x).
  - intros Hno. by rewrite filter_none.
Qed.

Lemma indexRule_occurrences this k c id :
  occurrences id (entry (_lookupMap (indexRule this k)) c)
  ≤ occurrences id (entry (_lookupMap this) c)
    + (if bool_decide (ref k = id) then 1 else 0).
Proof.
  etrans; [apply occurrences_sublist, indexRule_lookup_sublist|].
  rewrite occurrences_app. apply Nat.add_le_mono_l.
  destruct (indexed k && bool_decide (bindsCommand c k));
    unfold occurrences; [|simpl; lia].
  rewrite filter_cons. case_bool_decide.
  - by rewrite decide_True.
  - by rewrite decide_False.
Qed.

Lemma foldl_indexRule_occurrences rules this c id :
  (∀ x, x ∈ rules → ref x ≠ id) →
  occurrences id (entry (_lookupMap (foldl indexRule this rules)) c)
  ≤ occurrences id (entry (_lookupMap this) c).
Proof.
  revert this. induction rules as [|k rules IH]; intros this Hne; [done|].
  simpl. etrans; [apply IH; intros x Hx; apply Hne; by right|].
  etrans; [apply indexRule_occurrences|].
  rewrite bool_decide_eq_false_2 by (apply Hne; left). lia.
Qed.

(** *** Shadowing *)

Lemma arrays_equals_fmap (one other : list (KeyboundCommand CK)) :
  arrays_equals (λ a b, bool_decide (command a = command b)) one other
  = bool_decide (command <$> one = command <$> other).
Proof.
  revert other. induction one as [|a one IH]; intros [|b other];
    cbn [arrays_equals]; try done.
  rewrite IH, !fmap_cons.
  destruct (decide (command a = command b)) as [Hab|Hab],
    (decide (command <$> one = command <$> other)) as [Hl|Hl].
  - rewrite !bool_decide_eq_true_2; [done|congruence|done..].
  - rewrite bool_decide_eq_true_2, !bool_decide_eq_false_2; [done| |done..].
    congruence.
  - rewrite (bool_decide_eq_false_2 (command a = command b)) by done.
    rewrite (bool_decide_eq_false_2 (_ :: _ = _)); [done|]. congruence.
  - rewrite (bool_decide_eq_false_2 (command a = command b)) by done.
    rewrite (bool_decide_eq_false_2 (_ :: _ = _)); [done|]. congruence.
Qed.

Lemma shadowConflict_removes item conflict this :
  command <$> commands conflict ≠ command <$> commands item →
  ¬ (1 < length (chords conflict) ∧ 1 < length (chords item)
     ∧ chords conflict !! 1 ≠ chords item !! 1) →
  whenIsEntirelyIncluded (when conflict) (when item) = true →
  shadowConflict item conflict this = _removeFromLookupMap conflict this.
Proof.
  intros Hcmd Hchords Hwhen. unfold shadowConflict.
  rewrite arrays_equals_fmap, bool_decide_eq_false_2, Hwhen by done.
  destruct (_ && _ && _) eqn:Hb; [|done].
  apply andb_true_iff in Hb as [[H1 H2]%andb_true_iff H3].
  apply bool_decide_eq_true in H1, H2.
  apply negb_true_iff, bool_decide_eq_false in H3. by destruct Hchords.
Qed.

Lemma foldr_shadowConflict_removes item conflict conflicts this c :
  conflict ∈ conflicts →
  command <$> commands conflict ≠ command <$> commands item →
  ¬ (1 < length (chords conflict) ∧ 1 < length (chords item)
     ∧ chords conflict !! 1 ≠ chords item !! 1) →
  whenIsEntirelyIncluded (when conflict) (when item) = true →
  bindsCommand c conflict →
  occurrences (ref conflict)
    (entry (_lookupMap (foldr (shadowConflict item) this conflicts)) c)
  ≤ pred (occurrences (ref conflict) (entry (_lookupMap this) c)).
Proof.
  intros Hin Hcmd Hchords Hwhen Hc.
  induction conflicts as [|x l IH]; [by apply elem_of_nil in Hin|].
  simpl. apply elem_of_cons in Hin as [<-|Hin].
  - rewrite shadowConflict_removes, _removeFromLookupMap_entry by done.
    rewrite bool_decide_eq_true_2, occurrences_spliceFirst by done.
    apply Nat.pred_le_mono, occurrences_sublist, foldr_shadowConflict_sublist.
  - etrans; [apply occurrences_sublist, shadowConflict_sublist|]. by apply IH.
Qed.

(** Once a later rule has shadowed [B], the object [B] is in no array
    of the reverse index, provided [B] is listed once. *)
Lemma shadowed_rule_occurrences this l1 B l2 A l3 K c :
  (∀ c', _lookupMap this !! c' = None) →
  (∀ x, x ∈ l1 ++ l2 ++ A :: l3 → ref x ≠ ref B) →
  chords B !! 0 = Some K → indexedAt K A = true →
  command <$> commands B ≠ command <$> commands A →
  ¬ (1 < length (chords B) ∧ 1 < length (chords A)
     ∧ chords B !! 1 ≠ chords A !! 1) →
  whenIsEntirelyIncluded (when B) (when A) = true →
  occurrences (ref B)
    (entry (_lookupMap (foldl indexRule this (l1 ++ B :: l2 ++ A :: l3))) c)
  = 0.
Proof.
  intros Hempty Huniq HBK HAK Hcmd Hchords Hwhen.
  assert (∀ x, x ∈ l1 → ref x ≠ ref B) as Hl1.
  { intros x Hx. apply Huniq. apply elem_of_app. by left. }
  assert (∀ x, x ∈ l2 → ref x ≠ ref B) as Hl2.
  { intros x Hx. apply Huniq. rewrite !elem_of_app. right. by left. }
  assert (ref A ≠ ref B) as HA.
  { apply Huniq. rewrite !elem_of_app. right. right. by left. }
  assert (∀ x, x ∈ l3 → ref x ≠ ref B) as Hl3.
  { intros x Hx. apply Huniq. rewrite !elem_of_app. right. right. by right. }
  replace (l1 ++ B :: l2 ++ A :: l3) with ((l1 ++ B :: l2) ++ A :: l3)
    by by rewrite <- app_assoc.
  rewrite foldl_app. simpl.
  set (s3 := foldl indexRule this (l1 ++ B :: l2)).
  apply Nat.le_0_r.
  etrans; [by apply foldl_indexRule_occurrences|].
  assert (∀ c', occurrences (ref B) (entry (_lookupMap s3) c') ≤ 1) as H3.
  { intros c'. unfold s3. rewrite foldl_app. simpl.
    etrans; [by apply foldl_indexRule_occurrences|].
    etrans; [apply indexRule_occurrences|].
    rewrite bool_decide_eq_true_2 by done.
    assert (occurrences (ref B)
              (entry (_lookupMap (foldl indexRule this l1)) c') ≤ 0);
      [|lia].
    etrans; [by apply foldl_indexRule_occurrences|].
    unfold entry. by rewrite Hempty. }
  destruct (indexRule_cases s3 A) as [[Hi _]|(keypress & _ & HAk & ->)].
  { apply indexedAt_true in HAK as [HAk HAw]. unfold indexed in Hi.
    rewrite HAw, andb_true_r in Hi. apply bool_decide_eq_false in Hi.
    destruct (chords A); [done|]. by destruct Hi. }
  assert (keypress = K) as ->.
  { apply indexedAt_true in HAK as [HAk' _]. congruence. }
  rewrite _addKeyPress_lookup_entry, occurrences_app.
  replace (occurrences (ref B) (if bool_decide (bindsCommand c A) then [A] else []))
    with 0.
  2:{ symmetry. apply occurrences_none. intros x Hx.
      case_bool_decide; [|by apply elem_of_nil in Hx].
      by apply list_elem_of_singleton in Hx as ->. }
  rewrite Nat.add_0_r.
  destruct (decide (bindsCommand c B ∧ indexedAt K B = true)) as [[Hc HBi]|Hno].
  - etrans; [apply foldr_shadowConflict_removes with (conflict := B)|];
      try done.
    + unfold s3.
      rewrite (foldl_push_entry _map indexRule indexedAt indexRule_map_lookup).
      apply elem_of_app. right. apply list_elem_of_filter.
      split; [by apply Is_true_true|]. apply elem_of_app. right. by left.
    + specialize (H3 c). lia.
  - etrans; [apply occurrences_sublist, foldr_shadowConflict_sublist|].
    apply Nat.le_0_r, occurrences_none. intros x Hx Hid.
    apply foldl_indexRule_lookup_elem in Hx as [Hx|(Hx & Hi & Hb)].
    { unfold entry in Hx. rewrite Hempty in Hx. by apply elem_of_nil in Hx. }
    apply elem_of_app in Hx as [Hx|[->|Hx]%elem_of_cons].
    + by apply (Hl1 x).
    + apply Hno. split; [done|]. apply indexedAt_true. split; [done|].
      unfold indexed in Hi. by apply andb_true_iff in Hi as [_ ?%negb_true_iff].
    + by apply (Hl2 x).
Qed.

(** C3, as the code has it.  Let the merged rules list [B] before
    [A], both with first chord [K], [A] admitted to the chord index,
    with different command sequences, not both multi-chord rules with
    different second chords, [B] being an object listed once, and let
    [whenIsEntirelyIncluded (when B) (when A)] hold.  Then no array
    returned by [lookupKeybindings] holds the object [B]; [B] is
    still in the chord index under [K] (unless its predicate is the
    constant false); and [resolve] returns the outcome of [B] in any
    call whose scan stops at [B], in particular in fresh state on [K]
    with a context that satisfies [B] and no rule listed after [B] on
    that chord. *)
Theorem shadowed_rule_leaves_reverse_index_only
    defaults overrides K l1 B l2 A l3 :
  getKeybindings (newKeybindingResolver defaults overrides)
    = l1 ++ B :: l2 ++ A :: l3 →
  (∀ x, x ∈ l1 ++ l2 ++ A :: l3 → ref x ≠ ref B) →
  chords B !! 0 = Some K → chords A !! 0 = Some K →
  whenHasType (when A) ExprFalse = false →
  command <$> commands B ≠ command <$> commands A →
  ¬ (1 < length (chords B) ∧ 1 < length (chords A)
     ∧ chords B !! 1 ≠ chords A !! 1) →
  whenIsEntirelyIncluded (when B) (when A) = true →
  (∀ commandId x,
     x ∈ lookupKeybindings (newKeybindingResolver defaults overrides) commandId →
     sameObject x B = false)
  ∧ (whenHasType (when B) ExprFalse = false →
     B ∈ entry (_map (newKeybindingResolver defaults overrides)) K)
  ∧ (∀ context currentChord keypress pre post,
       candidatesOf (l1 ++ B :: l2 ++ A :: l3) currentChord keypress
         = pre ++ B :: post →
       satisfiedIn context B = true →
       (∀ x, x ∈ post → satisfiedIn context x = false) →
       resolve (newKeybindingResolver defaults overrides)
         context currentChord keypress
       = Some (resolveResult currentChord B))
  ∧ (∀ context,
       satisfiedIn context B = true →
       (∀ x, x ∈ l2 ++ A :: l3 → chords x !! 0 = Some K →
             satisfiedIn context x = false) →
       resolve (newKeybindingResolver defaults overrides) context None K
       = Some (resolveResult None B)).
Proof.
  intros Hm Huniq HBK HAK HAw Hcmd Hchords Hwhen. split_and!.
  - intros commandId x Hx.
    rewrite lookupKeybindings_reverse, elem_of_reverse in Hx.
    apply bool_decide_eq_false. revert x Hx. apply occurrences_none.
    rewrite getKeybindings_new in Hm. unfold newKeybindingResolver.
    simpl. rewrite Hm.
    apply shadowed_rule_occurrences with K; try done.
    by apply indexedAt_true.
  - intros HBw. rewrite _map_new_entry, Hm.
    apply list_elem_of_filter. split.
    + apply Is_true_true. by apply indexedAt_true.
    + apply elem_of_app. right. by left.
  - intros context currentChord keypress pre post Hc Hs Hpost.
    rewrite resolve_new, Hm, Hc, last_filter_app_cons; [done| |].
    + by apply Is_true_true.
    + intros y Hy Hsy%Is_true_true. rewrite (Hpost y Hy) in Hsy. done.
  - intros context Hs Hpost.
    rewrite resolve_new, Hm. unfold candidatesOf.
    rewrite list_filter_filter, last_filter_app_cons; [done| |].
    + split; [by apply Is_true_true|].
      apply Is_true_true. by apply satisfied_indexedAt with context.
    + intros y Hy [Hsy%Is_true_true [Hky _]%Is_true_true%indexedAt_true].
      rewrite (Hpost y Hy Hky) in Hsy. done.
Qed.

(** C5, as the code has it.  When the reverse index holds at least
    one rule for the command, [lookupPrimaryKeybinding] returns a
    rule: the only candidate when there is one; otherwise the first
    candidate accepted by the context service in the scan from the
    most recently inserted one, and when none is accepted the most
    recently inserted candidate, the last of the array. *)
Theorem lookupPrimaryKeybinding_never_null this commandId context items :
  _lookupMap this !! commandId = Some items → items ≠ [] →
  is_Some (lookupPrimaryKeybinding this commandId context)
  ∧ (∀ x, items = [x] →
       lookupPrimaryKeybinding this commandId context = Some x)
  ∧ (1 < length items →
     lookupPrimaryKeybinding this commandId context
     = match head (filter (λ x, contextMatchesRules context (when x))
                     (reverse items)) with
       | Some x => Some x
       | None => last items
       end).
Proof.
  intros Hl Hne. unfold lookupPrimaryKeybinding. rewrite Hl.
  rewrite bool_decide_eq_false_2
    by (intros Hz; by apply nil_length_inv in Hz).
  assert (is_Some (last items)) as Hlast.
  { destruct (last items) eqn:Hlast; [eauto|]. by apply last_None in Hlast. }
  split_and!.
  - case_bool_decide as H1.
    + destruct items as [|x [|y l]]; simplify_eq/=. eauto.
    + rewrite scanBackwards_last. destruct (last (filter _ items)); [eauto|].
      by rewrite Nat.sub_1_r, <- last_lookup.
  - by intros x ->.
  - intros Hlen. rewrite bool_decide_eq_false_2 by lia.
    rewrite scanBackwards_last, last_filter_head_reverse.
    by rewrite Nat.sub_1_r, <- last_lookup.
Qed.

End ReverseIndex.

(** ** The default bound commands *)

Section DefaultBound.
Context `{CK : Collaborators}.
Abbreviation Item := (ResolvedKeybindingItem CK).
Implicit Types (defaults overrides : list Item) (m : gmap string bool).

Lemma recordDefaultBound_lookup m (kc : KeyboundCommand CK) c :
  recordDefaultBound m kc !! c =
    if decide (command kc = c ∧ c ≠ EmptyString ∧ startsWithDash c = false)
    then Some true else m !! c.
Proof.
  unfold recordDefaultBound.
  destruct (decide (command kc = c)) as [<-|Hne].
  - case_bool_decide as He; simpl.
    + rewrite decide_False by (by intros (_ & ? & _)). done.
    + destruct (startsWithDash (command kc)) eqn:Hd; simpl.
      * rewrite decide_False by (intros (_ & _ & ?); congruence). done.
      * rewrite decide_True by done. by rewrite lookup_insert_eq.
  - rewrite decide_False by (by intros (? & _)).
    destruct (_ && _); [|done]. by rewrite lookup_insert_ne.
Qed.

Lemma foldl_recordDefaultBound_lookup (cmds : list (KeyboundCommand CK)) m c :
  foldl recordDefaultBound m cmds !! c =
    if decide (c ≠ EmptyString ∧ startsWithDash c = false ∧ c ∈ command <$> cmds)
    then Some true else m !! c.
Proof.
  revert m. induction cmds as [|kc cmds IH]; intros m.
  - simpl. rewrite decide_False; [done|].
    intros (_ & _ & Hin). by apply elem_of_nil in Hin.
  - simpl. rewrite IH, recordDefaultBound_lookup.
    destruct (decide (c ≠ EmptyString ∧ startsWithDash c = false
                      ∧ c ∈ command <$> cmds)) as [(?&?&?)|Hno].
    + rewrite decide_True; [done|]. split_and!; [done..|]. by right.
    + destruct (decide (command kc = c ∧ c ≠ EmptyString ∧ startsWithDash c = false))
        as [(<-&?&?)|Hno'].
      * rewrite decide_True; [done|]. split_and!; [done..|]. by left.
      * rewrite decide_False; [done|].
        intros (?&?&[->|?]%elem_of_cons); [by apply Hno'|by apply Hno].
Qed.

Lemma foldl_defaults_lookup defaults m c :
  foldl (λ m (d : Item), foldl recordDefaultBound m (commands d)) m defaults
    !! c
  = if decide (recordedDefault defaults c) then Some true else m !! c.
Proof.
  unfold recordedDefault.
  revert m. induction defaults as [|d defaults IH]; intros m.
  - simpl. rewrite decide_False; [done|].
    intros (_ & _ & Hex). by apply Exists_nil in Hex.
  - simpl. rewrite IH, foldl_recordDefaultBound_lookup.
    destruct (decide (c ≠ EmptyString ∧ startsWithDash c = false
                      ∧ Exists (λ d, c ∈ command <$> commands d) defaults))
      as [(?&?&?)|Hno].
    + rewrite decide_True; [done|]. split_and!; [done..|]. by right.
    + destruct (decide (c ≠ EmptyString ∧ startsWithDash c = false
                        ∧ c ∈ command <$> commands d)) as [(?&?&?)|Hno'].
      * rewrite decide_True; [done|]. split_and!; [done..|]. by left.
      * rewrite decide_False; [done|].
        intros (?&?&[?|?]%Exists_cons); [by apply Hno'|by apply Hno].
Qed.

Lemma getDefaultBoundCommands_new defaults overrides c :
  getDefaultBoundCommands (newKeybindingResolver defaults overrides) !! c
  = if decide (recordedDefault defaults c) then Some true else None.
Proof.
  unfold getDefaultBoundCommands, newKeybindingResolver.
  destruct (foldl_indexRule_keybindings
    (handleRemovals (([] ++ defaults) ++ overrides))
    {| _defaultKeybindings := defaults;
       _keybindings := handleRemovals (([] ++ defaults) ++ overrides);
       _defaultBoundCommands :=
         foldl (λ m defaultKeybinding,
                  foldl recordDefaultBound m (commands defaultKeybinding))
               ∅ defaults;
       _map := ∅; _lookupMap := ∅ |}) as (_ & _ & ->).
  simpl. by rewrite foldl_defaults_lookup, lookup_empty.
Qed.

Lemma recordedDefault_iff defaults c :
  recordedDefault defaults c
  ↔ c ≠ EmptyString ∧ startsWithDash c = false
    ∧ ∃ d, d ∈ defaults ∧ c ∈ command <$> commands d.
Proof. unfold recordedDefault. by rewrite Exists_exists. Qed.

(** C6, as the code has it.  The default bound commands are exactly
    the command identifiers that are not empty, do not start with '-',
    and occur among the commands of a rule of the defaults given to
    the constructor; when every default has exactly one command, as
    the constructor expects, these are the non-empty, non-removal
    commands bound by a default.  The set is read off the defaults
    alone: a command bound by a default stays in it whatever the
    removal pass drops, and a command no default mentions is not in
    it, whatever the overrides bind. *)
Theorem default_bound_commands defaults overrides c :
  (getDefaultBoundCommands (newKeybindingResolver defaults overrides) !! c
     = Some true
   ↔ c ≠ EmptyString ∧ startsWithDash c = false
     ∧ ∃ d, d ∈ defaults ∧ c ∈ command <$> commands d)
  ∧ (getDefaultBoundCommands (newKeybindingResolver defaults overrides) !! c
       = None
     ↔ ¬ (c ≠ EmptyString ∧ startsWithDash c = false
          ∧ ∃ d, d ∈ defaults ∧ c ∈ command <$> commands d))
  ∧ ((∀ d, d ∈ defaults → length (commands d) = 1) →
     (getDefaultBoundCommands (newKeybindingResolver defaults overrides) !! c
        = Some true
      ↔ c ≠ EmptyString ∧ startsWithDash c = false
        ∧ ∃ d, d ∈ defaults ∧ bindsCommand c d))
  ∧ (∀ d, d ∈ defaults → bindsCommand c d → c ≠ EmptyString →
          startsWithDash c = false →
          getDefaultBoundCommands (newKeybindingResolver defaults overrides)
            !! c = Some true)
  ∧ ((∀ d, d ∈ defaults → c ∉ command <$> commands d) →
     getDefaultBoundCommands (newKeybindingResolver defaults overrides) !! c
     = None).
Proof.
  rewrite getDefaultBoundCommands_new, <- recordedDefault_iff.
  split_and!.
  - case_decide; naive_solver.
  - case_decide; naive_solver.
  - intros Hone. case_decide as Hr.
    + split; [intros _|done].
      apply recordedDefault_iff in Hr as (?&?&d&Hd&Hc).
      split_and!; [done..|]. exists d. split; [done|].
      unfold bindsCommand. specialize (Hone d Hd).
      destruct (commands d) as [|kc [|kc' l]]; simplify_eq/=.
      by apply list_elem_of_singleton in Hc as ->.
    + split; [done|]. intros (?&?&d&Hd&Hc). destruct Hr.
      apply recordedDefault_iff. split_and!; [done..|].
      exists d. split; [done|]. rewrite Hc. by left.
  - intros d Hd Hc Hne Hdash. rewrite decide_True; [done|].
    apply recordedDefault_iff. split_and!; [done..|].
    exists d. split; [done|]. rewrite Hc. by left.
  - intros Hno. rewrite decide_False; [done|].
    intros (?&?&d&Hd&Hc)%recordedDefault_iff. by apply (Hno d).
Qed.

End DefaultBound.

(** ** The implication check, when it is sound

    When the predicate module's implication check is sound, and the
    constant true holds everywhere, a context that satisfies a shadowed
    rule satisfies the rule that shadows it. *)

Section SoundImplication.
Context `{CK : Collaborators}.
Hypothesis implies_sound : ∀ a b ctx,
  implies a b = true → evaluate a ctx = true → evaluate b ctx = true.
Hypothesis evaluate_True : ∀ e ctx,
  exprType e = ExprTrue → evaluate e ctx = true.

Lemma whenIsEntirelyIncluded_sound a b context :
  whenIsEntirelyIncluded a b = true →
  _contextMatchesRules context a = true →
  _contextMatchesRules context b = true.
Proof using implies_sound evaluate_True.
  unfold whenIsEntirelyIncluded, _contextMatchesRules.
  destruct b as [b'|]; [|done].
  case_bool_decide as Hb; [intros _ _; by apply evaluate_True|].
  destruct a as [a'|]; [|done].
  case_bool_decide; [done|]. apply implies_sound.
Qed.

End SoundImplication.

(** ** More on the removal pass *)

Section RemovalPass.
Context `{CK : Collaborators}.
Abbreviation Item := (ResolvedKeybindingItem CK).
Implicit Types (rule r d : Item) (rules : list Item).

Lemma isRemovedBy_false rule (l : list Item) :
  isRemovedBy rule l = false
  ↔ ∀ d, d ∈ l →
      _isTargetedForRemoval rule (chords d !! 0) (chords d !! 1) (when d)
      = false.
Proof.
  induction l as [|x l IH]; simpl.
  - split; [|done]. intros _ d Hd. by apply elem_of_nil in Hd.
  - destruct (_isTargetedForRemoval rule (chords x !! 0) _ _) eqn:Ht.
    + split; [done|]. intros Hall.
      rewrite (Hall x) in Ht; [done | by left].
    + rewrite IH. split.
      * intros Hall d [->|Hd]%elem_of_cons; auto.
      * intros Hall d Hd. apply Hall. by right.
Qed.

Lemma directive_of_dash rule (k : KeyboundCommand CK) :
  commands rule = [k] → startsWithDash (command k) = true →
  isRemovalDirective rule = true.
Proof.
  intros Hc Hd. apply isRemovalDirective_target. unfold removalTarget.
  rewrite Hc, Hd. eauto.
Qed.

Lemma elem_of_targets rules d c :
  d ∈ filter (λ r, targets c r) rules ↔ d ∈ rules ∧ targets c d = true.
Proof. rewrite list_elem_of_filter, Is_true_true. tauto. Qed.

(** The decision of the second pass, read off the input list. *)
Lemma survives_iff rules r :
  survives (removalsOf rules) r = true
  ↔ isRemovalDirective r = false
    ∧ (passesThrough r = true ∨ isDefault r = false
       ∨ ∀ d c, d ∈ rules → bindsCommand c r → targets c d = true →
           _isTargetedForRemoval r (chords d !! 0) (chords d !! 1) (when d)
           = false).
Proof.
  split.
  - intros Hs. split; [by apply survives_not_directive in Hs|].
    unfold survives in Hs. unfold passesThrough.
    destruct (commands r) as [|k [|k' ks]] eqn:Hc; [by left| |by left].
    case_bool_decide; [by left|].
    destruct (startsWithDash (command k)); [done|].
    rewrite removalsOf_lookup in Hs. right.
    destruct (filter (λ r, targets (command k) r) rules) as [|x l] eqn:Hf.
    + right. intros d c Hd (k0 & Hk0 & <-)%bindsCommand_inv Ht.
      rewrite Hc in Hk0. simplify_eq.
      assert (d ∈ filter (λ r, targets (command k0) r) rules) as Hin
        by by apply elem_of_targets.
      rewrite Hf in Hin. by apply elem_of_nil in Hin.
    + apply orb_true_iff in Hs as [Hs|Hs]; [left; by apply negb_true_iff|].
      right. intros d c Hd (k0 & Hk0 & <-)%bindsCommand_inv Ht.
      rewrite Hc in Hk0. simplify_eq.
      apply negb_true_iff in Hs.
      apply (proj1 (isRemovedBy_false r (x :: l)) Hs).
      rewrite <- Hf. by apply elem_of_targets.
  - intros [Hnd Hcases].
    destruct Hcases as [Hp|[Hu|Hall]]; [by apply passesThrough_survives|..].
    + unfold survives.
      destruct (commands r) as [|k [|k' ks]] eqn:Hc; try done.
      case_bool_decide; [done|].
      destruct (startsWithDash (command k)) eqn:Hd.
      { rewrite (directive_of_dash r k Hc Hd) in Hnd. done. }
      destruct (removalsOf rules !! command k); [|done]. by rewrite Hu.
    + unfold survives.
      destruct (commands r) as [|k [|k' ks]] eqn:Hc; try done.
      case_bool_decide; [done|].
      destruct (startsWithDash (command k)) eqn:Hd.
      { rewrite (directive_of_dash r k Hc Hd) in Hnd. done. }
      rewrite removalsOf_lookup.
      destruct (filter (λ r, targets (command k) r) rules) as [|x l] eqn:Hf;
        [done|].
      apply orb_true_iff. right. apply negb_true_iff, isRemovedBy_false.
      intros d Hd'. rewrite <- Hf in Hd'.
      apply elem_of_targets in Hd' as [Hd' Ht].
      apply (Hall d (command k)); [done| |done].
      unfold bindsCommand. by rewrite Hc.
Qed.

Lemma user_rule_survives (removals : gmap string (list Item)) r :
  isDefault r = false → isRemovalDirective r = false →
  survives removals r = true.
Proof.
  intros Hu Hnd. unfold survives.
  destruct (commands r) as [|k [|k' ks]] eqn:Hc; try done.
  case_bool_decide; [done|].
  destruct (startsWithDash (command k)) eqn:Hd.
  { rewrite (directive_of_dash r k Hc Hd) in Hnd. done. }
  destruct (removals !! command k); [|done]. by rewrite Hu.
Qed.

Lemma kept_by_removal_pass_iff rules r :
  r ∈ handleRemovals rules
  ↔ r ∈ rules ∧ isRemovalDirective r = false
    ∧ (passesThrough r = true ∨ isDefault r = false
       ∨ ∀ d c, d ∈ rules → bindsCommand c r → targets c d = true →
           _isTargetedForRemoval r (chords d !! 0) (chords d !! 1) (when d)
           = false).
Proof.
  rewrite handleRemovals_filter, list_elem_of_filter, Is_true_true.
  rewrite survives_iff. tauto.
Qed.

(** X1.  The removal pass returns its input unchanged exactly when the
    input holds no removal directive. *)
Theorem handleRemovals_unchanged_iff rules :
  handleRemovals rules = rules
  ↔ ∀ r, r ∈ rules → isRemovalDirective r = false.
Proof.
  split.
  - intros Heq r Hr. rewrite <- Heq in Hr.
    by apply handleRemovals_no_directive in Hr.
  - intros Hno. apply removalsOf_empty in Hno.
    unfold handleRemovals. fold (removalsOf rules). rewrite Hno.
    by rewrite bool_decide_eq_true_2 by apply map_size_empty.
Qed.

(** X2.  The removal pass only drops rules: its output is its input
    with some entries left out, in the same order, and is no longer
    than the input. *)
Theorem handleRemovals_sublist rules :
  handleRemovals rules `sublist_of` rules
  ∧ length (handleRemovals rules) ≤ length rules.
Proof.
  assert (handleRemovals rules `sublist_of` rules) as Hsub.
  { rewrite handleRemovals_filter. apply sublist_filter. }
  split; [done | by apply sublist_length].
Qed.

(** X3.  A rule is in the output of the removal pass exactly when it
    is in the input, is not a removal directive, and either has no
    single non-empty command, or is not a default, or no directive of
    the input for its command is targeted at it.  Where the directive
    stands in the list plays no part. *)
Theorem handleRemovals_keeps_exactly rules r :
  r ∈ handleRemovals rules
  ↔ r ∈ rules ∧ isRemovalDirective r = false
    ∧ (passesThrough r = true ∨ isDefault r = false
       ∨ ∀ d c, d ∈ rules → bindsCommand c r → targets c d = true →
           _isTargetedForRemoval r (chords d !! 0) (chords d !! 1) (when d)
           = false).
Proof.
  rewrite handleRemovals_filter, list_elem_of_filter, Is_true_true.
  rewrite survives_iff. tauto.
Qed.

(** X4.  The rules that are not defaults and not removal directives go
    through the removal pass untouched: all of them are kept, in their
    order, whatever directives the input holds. *)
Theorem handleRemovals_keeps_user_rules rules :
  filter (λ r, isDefault r = false ∧ isRemovalDirective r = false)
    (handleRemovals rules)
  = filter (λ r, isDefault r = false ∧ isRemovalDirective r = false) rules.
Proof.
  rewrite handleRemovals_filter. apply list_filter_filter_l.
  intros r [Hu Hnd]. apply Is_true_true. by apply user_rule_survives.
Qed.

(** X5.  A removal directive whose first two chords are absent or
    empty strings and whose predicate is absent or the constant true
    unbinds its command everywhere: every default rule whose single
    command is the non-empty [C] is dropped, whatever its chords and
    its predicate. *)
Theorem chordless_directive_unbinds_everywhere rules d C :
  d ∈ rules →
  truthy (chords d !! 0) = false → truthy (chords d !! 1) = false →
  when d = None ∨ whenHasType (when d) ExprTrue = true →
  bindsCommand (String "-" C) d → C ≠ EmptyString →
  ∀ r, isDefault r = true → bindsCommand C r → r ∉ handleRemovals rules.
Proof.
  intros Hd H0 H1 Hw Hdc HC r Hdef Hb
    (_ & _ & [Hp|[Hu|Hall]])%kept_by_removal_pass_iff.
  - apply bindsCommand_inv in Hb as (k & Hk & <-).
    unfold passesThrough in Hp. rewrite Hk in Hp.
    by apply bool_decide_eq_true in Hp.
  - congruence.
  - assert (targets C d = true) as Ht.
    { unfold targets. apply bool_decide_eq_true. by apply bindsCommand_target. }
    specialize (Hall d C Hd Hb Ht).
    unfold _isTargetedForRemoval in Hall. rewrite H0, H1 in Hall. simpl in Hall.
    destruct Hw as [Hw|Hw].
    + by rewrite Hw in Hall.
    + unfold whenHasType in Hw. destruct (when d) as [w|]; [|done].
      by rewrite Hw in Hall.
Qed.

(** X6.  A default rule stays when every directive for its command
    misses it: the directive names a first chord that is not the
    rule's, or a second chord that is not the rule's, or carries a
    predicate other than the constant true while the rule has none or
    one that the equality check tells apart. *)
Theorem mismatched_directives_spare_default rules r :
  r ∈ rules → isRemovalDirective r = false →
  (∀ d c, d ∈ rules → bindsCommand c r → targets c d = true →
     (truthy (chords d !! 0) = true ∧ chords d !! 0 ≠ chords r !! 0)
     ∨ (truthy (chords d !! 1) = true ∧ chords d !! 1 ≠ chords r !! 1)
     ∨ (∃ w, when d = Some w ∧ exprType w ≠ ExprTrue
          ∧ (when r = None
             ∨ ∃ rw, when r = Some rw
                 ∧ expressionsAreEqualWithConstantSubstitution w rw = false))) →
  r ∈ handleRemovals rules.
Proof.
  intros Hr Hnd Hmiss. apply kept_by_removal_pass_iff.
  split_and!; [done..|]. right. right. intros d c Hd Hb Ht.
  unfold _isTargetedForRemoval.
  destruct (Hmiss d c Hd Hb Ht)
    as [[H0 Hne]|[[H1 Hne]|(w & Hw & Htype & Hrw)]].
  - rewrite H0. rewrite bool_decide_eq_false_2; [done|]. congruence.
  - rewrite H1.
    destruct (truthy (chords d !! 0)
              && negb (bool_decide (chords r !! 0 = chords d !! 0))); [done|].
    rewrite bool_decide_eq_false_2; [done|]. congruence.
  - destruct (truthy (chords d !! 0)
              && negb (bool_decide (chords r !! 0 = chords d !! 0))); [done|].
    destruct (truthy (chords d !! 1)
              && negb (bool_decide (chords r !! 1 = chords d !! 1))); [done|].
    rewrite Hw, bool_decide_eq_false_2 by done. simpl.
    destruct Hrw as [-> | (rw & -> & ->)]; done.
Qed.

End RemovalPass.

(** ** More on resolution *)

Section ResolutionOutcomes.
Context `{CK : Collaborators}.
Abbreviation Item := (ResolvedKeybindingItem CK).
Implicit Types (this : KeybindingResolver CK) (r u : Item).
Implicit Types (rules : list Item) (context : IContext).

Lemma elem_of_candidatesOf rules currentChord keypress r :
  r ∈ candidatesOf rules currentChord keypress
  ↔ r ∈ rules ∧ matchesKeys currentChord keypress r
    ∧ whenHasType (when r) ExprFalse = false.
Proof.
  unfold candidatesOf, matchesKeys. destruct currentChord as [chord|].
  - rewrite !list_elem_of_filter, Is_true_true, indexedAt_true. tauto.
  - rewrite list_elem_of_filter, Is_true_true, indexedAt_true. tauto.
Qed.

Lemma last_filter_None {A} (P : A → Prop) `{!∀ x, Decision (P x)} (l : list A) :
  last (filter P l) = None ↔ ∀ x, x ∈ l → ¬ P x.
Proof.
  rewrite last_None. split.
  - intros Hnil x Hx HP. by apply (filter_nil_not_elem_of P l x).
  - apply filter_none.
Qed.

(** X7.  The chord index of a constructed resolver has no entry for a
    key exactly when no merged rule is admitted under that key; an
    entry is never empty and holds the merged rules admitted under the
    key, in the order of the merged list. *)
Theorem chord_index_entries defaults overrides key :
  (_map (newKeybindingResolver defaults overrides) !! key = None
   ↔ ∀ r, r ∈ getKeybindings (newKeybindingResolver defaults overrides) →
          indexedAt key r = false)
  ∧ (∀ l, _map (newKeybindingResolver defaults overrides) !! key = Some l →
          l ≠ []
          ∧ l = filter (λ r, indexedAt key r)
                  (getKeybindings (newKeybindingResolver defaults overrides))).
Proof.
  rewrite _map_new. split.
  - destruct (filter _ _) as [|x l] eqn:Hf.
    + split; [intros _|done]. intros r Hr. apply not_true_is_false. intros Hi.
      apply (filter_nil_not_elem_of _ _ r Hf); [by apply Is_true_true|done].
    + split; [done|]. intros Hno.
      assert (x ∈ filter (λ r, indexedAt key r)
                (getKeybindings (newKeybindingResolver defaults overrides)))
        as [Hx%Is_true_true Hin]%list_elem_of_filter by (rewrite Hf; left).
      rewrite (Hno x Hin) in Hx. done.
  - intros l Hl. destruct (filter _ _) as [|x l']; by simplify_eq.
Qed.

(** X8.  [resolve] on a constructed resolver reports no match exactly
    when no merged rule with the chords of the call is satisfied by the
    context. *)
Theorem resolve_none_iff defaults overrides context currentChord keypress :
  resolve (newKeybindingResolver defaults overrides)
    context currentChord keypress = None
  ↔ ∀ r, r ∈ getKeybindings (newKeybindingResolver defaults overrides) →
         matchesKeys currentChord keypress r →
         satisfiedIn context r = false.
Proof.
  rewrite resolve_new, fmap_None, last_filter_None. split.
  - intros Hno r Hr Hk. apply not_true_is_false. intros Hs.
    apply (Hno r); [|by apply Is_true_true].
    apply elem_of_candidatesOf. split_and!; [done..|].
    by apply satisfiedIn_not_False with context.
  - intros Hno r (Hr & Hk & _)%elem_of_candidatesOf Hs%Is_true_true.
    rewrite (Hno r Hr Hk) in Hs. done.
Qed.

(** X9.  An outcome of [resolve] on a constructed resolver is the
    outcome of a merged rule that has the chords of the call, is
    satisfied by the context, and whose predicate is not the constant
    false. *)
Theorem resolve_some_from_rule
    defaults overrides context currentChord keypress res :
  resolve (newKeybindingResolver defaults overrides)
    context currentChord keypress = Some res →
  ∃ r, r ∈ getKeybindings (newKeybindingResolver defaults overrides)
       ∧ matchesKeys currentChord keypress r
       ∧ satisfiedIn context r = true
       ∧ whenHasType (when r) ExprFalse = false
       ∧ res = resolveResult currentChord r.
Proof.
  rewrite resolve_new. intros (r & Hlast & ->)%fmap_Some.
  apply last_Some_elem_of, list_elem_of_filter in Hlast
    as [Hs%Is_true_true (Hr & Hk & Hw)%elem_of_candidatesOf].
  exists r. by split_and!.
Qed.

(** X10.  Whatever the resolver holds, an outcome of [resolve] leaves
    a multi-chord exactly when the call was made in mid-chord state, and
    never both enters and leaves one. *)
Theorem leaveMultiChord_iff_mid_chord this context currentChord keypress res :
  resolve this context currentChord keypress = Some res →
  (leaveMultiChord res = true ↔ is_Some currentChord)
  ∧ (enterMultiChord res = true → leaveMultiChord res = false).
Proof.
  rewrite resolve_last. intros (r & Hr & ->)%fmap_Some.
  unfold resolveResult, isNotNull. destruct currentChord as [chord|]; simpl.
  - split; [|done]. split; [eauto|intros _].
    apply bind_Some in Hr as (l & Hl & Hlast).
    destruct (_map this !! chord) as [candidates|] eqn:Hm.
    2:{ unfold resolveCandidates in Hl. by rewrite Hm in Hl. }
    rewrite (resolveCandidates_filter _ _ _ _ Hm) in Hl. simplify_eq.
    apply last_Some_elem_of, list_elem_of_filter in Hlast as [_ Hin].
    apply list_elem_of_filter in Hin as [H1 _].
    apply bool_decide_eq_true. apply lookup_lt_Some in H1. lia.
  - rewrite andb_true_r.
    destruct (bool_decide (1 < length (chords r))); simpl.
    + split; [|done]. split; [done | by intros [? [=]]].
    + split; [|done]. split; [done | by intros [? [=]]].
Qed.

(** X11.  The last override wins: when the last rule of the overrides
    is not a default and not a removal directive, has first chord [K]
    and is satisfied by the context, pressing [K] in fresh state gives
    the outcome of that rule, whatever the other rules are. *)
Theorem last_override_wins defaults overrides u context K :
  isDefault u = false → isRemovalDirective u = false →
  chords u !! 0 = Some K → satisfiedIn context u = true →
  resolve (newKeybindingResolver defaults (overrides ++ [u])) context None K
  = Some (resolveResult None u).
Proof.
  intros Hu Hnd HK Hs.
  rewrite resolve_new, getKeybindings_new, handleRemovals_filter.
  rewrite (app_assoc defaults overrides [u]), filter_app.
  rewrite (filter_cons_True _ u [])
    by (apply Is_true_true; by apply user_rule_survives).
  rewrite filter_nil.
  unfold candidatesOf.
  rewrite list_filter_filter, last_filter_app_cons; [done| |].
  - split; [by apply Is_true_true|].
    apply Is_true_true. by apply satisfied_indexedAt with context.
  - intros y Hy. by apply elem_of_nil in Hy.
Qed.

End ResolutionOutcomes.

(** ** More on the reverse index *)

Section ReverseLookup.
Context `{CK : Collaborators}.
Abbreviation Item := (ResolvedKeybindingItem CK).
Implicit Types (this : KeybindingResolver CK) (item k x y : Item).
Implicit Types (rules arr : list Item).

Lemma sublist_reverse {A} (l1 l2 : list A) :
  l1 `sublist_of` l2 → reverse l1 `sublist_of` reverse l2.
Proof.
  induction 1 as [|a l1 l2 _ IH|a l1 l2 _ IH]; [done|..].
  - rewrite !reverse_cons. by apply sublist_app.
  - rewrite reverse_cons. by apply sublist_inserts_r.
Qed.

Lemma foldl_indexRule_lookup_sublist rules this c :
  entry (_lookupMap (foldl indexRule this rules)) c
    `sublist_of`
      entry (_lookupMap this) c
      ++ filter (λ k, indexed k = true ∧ bindsCommand c k) rules.
Proof.
  revert this. induction rules as [|k rules IH]; intros this; simpl.
  - by rewrite app_nil_r.
  - etrans; [apply IH|]. rewrite filter_cons.
    etrans; [apply sublist_app; [apply indexRule_lookup_sublist|done]|].
    rewrite <- app_assoc. apply sublist_app; [done|].
    case_decide as Hd.
    + destruct Hd as [-> ?]. simpl. by rewrite bool_decide_eq_true_2.
    + destruct (indexed k) eqn:Hi; simpl; [|done].
      rewrite bool_decide_eq_false_2; [done|]. intros ?. by apply Hd.
Qed.

(** X12.  [lookupKeybindings] lists rules most recent first: its
    result is the merged rules that have a chord, a predicate other than
    the constant false and the command as their single command, in
    reverse order, with some of them left out.  So every rule it
    returns is a merged rule with exactly that one command and at least
    one chord, and none is a removal directive. *)
Theorem lookupKeybindings_most_recent_first defaults overrides c :
  lookupKeybindings (newKeybindingResolver defaults overrides) c
    `sublist_of`
      reverse (filter (λ k, indexed k = true ∧ bindsCommand c k)
                 (getKeybindings (newKeybindingResolver defaults overrides)))
  ∧ (∀ x, x ∈ lookupKeybindings (newKeybindingResolver defaults overrides) c →
          x ∈ getKeybindings (newKeybindingResolver defaults overrides)
          ∧ command <$> commands x = [c]
          ∧ chords x ≠ []
          ∧ whenHasType (when x) ExprFalse = false
          ∧ isRemovalDirective x = false).
Proof.
  split.
  - rewrite lookupKeybindings_reverse. apply sublist_reverse.
    rewrite getKeybindings_new. unfold newKeybindingResolver. simpl.
    etrans; [apply foldl_indexRule_lookup_sublist|].
    simpl. unfold entry. by rewrite lookup_empty.
  - intros x Hx. rewrite lookupKeybindings_reverse, elem_of_reverse in Hx.
    apply _lookupMap_new_elem in Hx as (Hin & Hi & Hb).
    unfold indexed in Hi.
    apply andb_true_iff in Hi as [Hc%bool_decide_eq_true Hw%negb_true_iff].
    split_and!; try done.
    rewrite getKeybindings_new in Hin.
    by apply handleRemovals_no_directive in Hin.
Qed.

(** X13.  Whatever the resolver holds, [lookupPrimaryKeybinding]
    agrees with [lookupKeybindings]: it returns nothing exactly when
    [lookupKeybindings] returns the empty list, what it returns is in
    that list, and when some rule of the list is accepted by the context
    service the rule returned is accepted too. *)
Theorem lookupPrimaryKeybinding_among_lookupKeybindings this commandId context :
  (lookupPrimaryKeybinding this commandId context = None
   ↔ lookupKeybindings this commandId = [])
  ∧ (∀ x, lookupPrimaryKeybinding this commandId context = Some x →
          x ∈ lookupKeybindings this commandId)
  ∧ (∀ y, y ∈ lookupKeybindings this commandId →
          contextMatchesRules context (when y) = true →
          ∃ x, lookupPrimaryKeybinding this commandId context = Some x
               ∧ contextMatchesRules context (when x) = true).
Proof.
  rewrite lookupKeybindings_reverse. unfold lookupPrimaryKeybinding, entry.
  destruct (_lookupMap this !! commandId) as [items|]; simpl.
  2:{ split_and!; [done..|]. intros y Hy. by apply elem_of_nil in Hy. }
  destruct items as [|a [|b items]].
  - split_and!; [done..|]. intros y Hy. by apply elem_of_nil in Hy.
  - simpl. split_and!.
    + done.
    + intros x [= <-]. apply elem_of_reverse. left.
    + intros y Hy Hm. rewrite elem_of_reverse, list_elem_of_singleton in Hy.
      subst y. eauto.
  - rewrite bool_decide_eq_false_2, bool_decide_eq_false_2 by (simpl; lia).
    rewrite scanBackwards_last.
    set (items' := a :: b :: items).
    assert (is_Some (items' !! (length items' - 1))) as [z Hz].
    { apply lookup_lt_is_Some_2. simpl. lia. }
    rewrite Hz. split_and!.
    + split; [by destruct (last (filter _ items'))|].
      intros Hnil. apply (f_equal length) in Hnil.
      rewrite length_reverse in Hnil. done.
    + intros x Hx. apply elem_of_reverse.
      destruct (last (filter _ items')) as [w|] eqn:Hlast; simplify_eq.
      * apply last_Some_elem_of, list_elem_of_filter in Hlast. tauto.
      * by apply list_elem_of_lookup_2 in Hz.
    + intros y Hy Hm. rewrite elem_of_reverse in Hy.
      destruct (last (filter (λ x, contextMatchesRules context (when x)) items'))
        as [w|] eqn:Hlast.
      * exists w. split; [done|].
        apply last_Some_elem_of, list_elem_of_filter in Hlast as [Hw _].
        by apply Is_true_true.
      * apply last_None in Hlast.
        destruct (filter_nil_not_elem_of _ _ y Hlast); [|done].
        by apply Is_true_true.
Qed.

(** X14.  The last merged rule, when it has a chord, a predicate other
    than the constant false and a single command, is the first rule
    [lookupKeybindings] returns for that command. *)
Theorem last_rule_heads_lookupKeybindings defaults overrides pre k c :
  getKeybindings (newKeybindingResolver defaults overrides) = pre ++ [k] →
  indexed k = true → bindsCommand c k →
  head (lookupKeybindings (newKeybindingResolver defaults overrides) c) = Some k.
Proof.
  intros Hm Hi Hb. rewrite lookupKeybindings_reverse.
  rewrite getKeybindings_new in Hm. unfold newKeybindingResolver. simpl.
  rewrite Hm, foldl_app. simpl.
  match goal with |- context [indexRule ?s k] =>
    destruct (indexRule_cases s k) as [[Hi' _]|(keypress & _ & _ & ->)]
  end; [congruence|].
  rewrite _addKeyPress_lookup_entry, bool_decide_eq_true_2 by done.
  by rewrite reverse_app.
Qed.

Lemma spliceFirst_occurrences_other item arr id :
  ref item ≠ id → occurrences id (spliceFirst item arr) = occurrences id arr.
Proof.
  intros Hne. unfold occurrences. induction arr as [|x arr IH]; simpl; [done|].
  unfold sameObject. case_bool_decide as Hx.
  - rewrite filter_cons_False; [done|]. congruence.
  - rewrite !filter_cons. case_decide; simpl; by rewrite IH.
Qed.

Lemma _removeFromLookupMap_occurrences_other item this c id :
  ref item ≠ id →
  occurrences id (entry (_lookupMap (_removeFromLookupMap item this)) c)
  = occurrences id (entry (_lookupMap this) c).
Proof.
  intros Hne. rewrite _removeFromLookupMap_entry.
  case_bool_decide; [by apply spliceFirst_occurrences_other | done].
Qed.

Lemma shadowConflict_keeps item conflict this :
  command <$> commands item = command <$> commands conflict
  ∨ whenIsEntirelyIncluded (when conflict) (when item) = false
  ∨ (1 < length (chords conflict) ∧ 1 < length (chords item)
     ∧ chords conflict !! 1 ≠ chords item !! 1) →
  shadowConflict item conflict this = this.
Proof.
  intros Hkeep. unfold shadowConflict. rewrite arrays_equals_fmap.
  case_bool_decide as Hc; [done|].
  destruct Hkeep as [Heq|[Hw|(H1 & H2 & H3)]]; [congruence|..].
  - rewrite Hw. by destruct (_ && _ && _).
  - rewrite !bool_decide_eq_true_2 by done.
    rewrite (bool_decide_eq_false_2 (chords conflict !! 1 = chords item !! 1))
      by done. done.
Qed.

(** While the rules of a list are registered, an object that no rule
    of the list on its first chord can shadow is never spliced out of
    the reverse index. *)
Lemma foldl_indexRule_keeps_unshadowed rules this k K c :
  (∀ key, _map this !! key = None) →
  indexedAt K k = true → bindsCommand c k →
  (∀ x, x ∈ rules → ref x = ref k → x = k) →
  (∀ x, x ∈ rules → indexedAt K x = true →
     command <$> commands x = command <$> commands k
     ∨ whenIsEntirelyIncluded (when k) (when x) = false
     ∨ (1 < length (chords k) ∧ 1 < length (chords x)
        ∧ chords k !! 1 ≠ chords x !! 1)) →
  k ∈ rules →
  1 ≤ occurrences (ref k) (entry (_lookupMap (foldl indexRule this rules)) c).
Proof.
  intros Hempty HkK Hb. induction rules as [|x p IH] using rev_ind;
    intros Hwf Hunsh Hin; [by apply elem_of_nil in Hin|].
  rewrite foldl_app. simpl.
  set (s := foldl indexRule this p).
  assert (indexed k = true) as Hki.
  { apply indexedAt_true in HkK as [H0 Hw]. unfold indexed.
    rewrite Hw, andb_true_r. apply bool_decide_eq_true.
    intros Hnil. by rewrite Hnil in H0. }
  destruct (indexRule_cases s x) as [[Hxi ->]|(keypress & Hxi & Hxk & ->)].
  { apply elem_of_app in Hin as [Hin|Hin%list_elem_of_singleton].
    - apply IH; [| |done].
      + intros y Hy. apply Hwf. apply elem_of_app. by left.
      + intros y Hy. apply Hunsh. apply elem_of_app. by left.
    - subst x. congruence. }
  rewrite _addKeyPress_lookup_entry, occurrences_app.
  assert (occurrences (ref k)
            (entry (_lookupMap
               (foldr (shadowConflict x) s (entry (_map s) keypress))) c)
          = occurrences (ref k) (entry (_lookupMap s) c)) as ->.
  { assert (∀ y, y ∈ entry (_map s) keypress →
                 y ∈ p ∧ indexedAt keypress y = true) as Hconf.
    { intros y. unfold s.
      rewrite (foldl_push_entry _map indexRule indexedAt indexRule_map_lookup).
      unfold entry at 1. rewrite Hempty. simpl.
      rewrite list_elem_of_filter, Is_true_true. tauto. }
    induction (entry (_map s) keypress) as [|y conflicts IHc]; [done|].
    simpl. rewrite <- IHc by (intros z Hz; apply Hconf; by right).
    destruct (Hconf y) as [Hyp Hyi]; [by left|].
    destruct (decide (ref y = ref k)) as [Hid|Hid].
    - assert (y = k) as -> by (apply Hwf; [apply elem_of_app; by left|done]).
      assert (keypress = K) as ->.
      { apply indexedAt_true in Hyi as [H0 _].
        apply indexedAt_true in HkK as [H0' _]. congruence. }
      rewrite shadowConflict_keeps; [done|].
      apply Hunsh; [apply elem_of_app; right; by left|].
      apply indexedAt_true. split; [done|].
      unfold indexed in Hxi. by apply andb_true_iff in Hxi as [_ ?%negb_true_iff].
    - destruct (shadowConflict_cases x y
                  (foldr (shadowConflict x) s conflicts)) as [-> | ->]; [done|].
      by apply _removeFromLookupMap_occurrences_other. }
  apply elem_of_app in Hin as [Hin|Hin%list_elem_of_singleton].
  - assert (1 ≤ occurrences (ref k) (entry (_lookupMap s) c)); [|lia].
    apply IH; [| |done].
    + intros y Hy. apply Hwf. apply elem_of_app. by left.
    + intros y Hy. apply Hunsh. apply elem_of_app. by left.
  - subst x. rewrite bool_decide_eq_true_2 by done.
    unfold occurrences at 2. rewrite filter_cons_True by done. simpl. lia.
Qed.

(** X15.  A rule leaves the reverse index only by being shadowed: a
    merged rule [k] admitted under [K] with the single command [c] is
    returned by [lookupKeybindings c] when every merged rule admitted
    under [K] has the same command identifiers as [k], or a predicate
    that does not entirely include that of [k], or is a multi-chord
    rule with another second chord than the multi-chord rule [k].
    Rules under other first chords play no part.  No other merged rule
    may be the object [k]. *)
Theorem unshadowed_rule_stays_in_reverse_index defaults overrides k K c :
  k ∈ getKeybindings (newKeybindingResolver defaults overrides) →
  indexedAt K k = true → bindsCommand c k →
  (∀ x, x ∈ getKeybindings (newKeybindingResolver defaults overrides) →
        ref x = ref k → x = k) →
  (∀ x, x ∈ getKeybindings (newKeybindingResolver defaults overrides) →
        indexedAt K x = true →
        command <$> commands x = command <$> commands k
        ∨ whenIsEntirelyIncluded (when k) (when x) = false
        ∨ (1 < length (chords k) ∧ 1 < length (chords x)
           ∧ chords k !! 1 ≠ chords x !! 1)) →
  k ∈ lookupKeybindings (newKeybindingResolver defaults overrides) c.
Proof.
  intros Hin HkK Hb Hwf Hunsh.
  rewrite lookupKeybindings_reverse, elem_of_reverse.
  assert (1 ≤ occurrences (ref k)
            (entry (_lookupMap (newKeybindingResolver defaults overrides)) c))
    as Hocc.
  { rewrite getKeybindings_new in Hin, Hwf, Hunsh.
    unfold newKeybindingResolver. simpl.
    by apply foldl_indexRule_keeps_unshadowed with K. }
  unfold occurrences in Hocc.
  destruct (filter (λ x, ref x = ref k) _) as [|y l] eqn:Hf;
    [simpl in Hocc; lia|].
  assert (y ∈ filter (λ x, ref x = ref k)
            (entry (_lookupMap (newKeybindingResolver defaults overrides)) c))
    as [Hid Hy]%list_elem_of_filter by (rewrite Hf; left).
  pose proof Hy as Hy'. apply _lookupMap_new_elem in Hy' as (Hm & _ & _).
  by rewrite <- (Hwf y Hm Hid).
Qed.

End ReverseLookup.

(** X16.  When the implication check of the predicate module is sound
    and the constant true holds in every context, the inclusion test is
    sound: if [whenIsEntirelyIncluded a b] holds, every context that
    matches [a] matches [b], so the rule that shadows another one is
    active wherever the shadowed one is. *)
Theorem whenIsEntirelyIncluded_implies_in_context `{CK : Collaborators}
    (a b : option ContextKeyExpression) (context : IContext) :
  (∀ p q ctx, implies p q = true → evaluate p ctx = true →
              evaluate q ctx = true) →
  (∀ e ctx, exprType e = ExprTrue → evaluate e ctx = true) →
  whenIsEntirelyIncluded a b = true →
  _contextMatchesRules context a = true →
  _contextMatchesRules context b = true.
Proof.
  intros Hsound Htrue. unfold whenIsEntirelyIncluded, _contextMatchesRules.
  destruct b as [b'|]; [|done].
  case_bool_decide as Hb; [intros _ _; by apply Htrue|].
  destruct a as [a'|]; [|done].
  case_bool_decide; [done|]. apply Hsound.
Qed.

(** ** The statements on concrete rule lists *)

Import Sample.

(** The implication check of the sample language is sound, and its
    constant true holds in every context. *)
Lemma sample_entails_sound (a b : Expr) (ctx : list string) :
  entails a b = true → eval a ctx = true → eval b ctx = true.
Proof.
  destruct a as [| |k], b as [| |k']; simpl; try done.
  by intros ->%bool_decide_eq_true.
Qed.

Lemma sample_shadowing_sound (B A : Item) (ctx : list string) :
  whenIsEntirelyIncluded (when B) (when A) = true →
  satisfiedIn (CK := collaborators) ctx B = true →
  satisfiedIn (CK := collaborators) ctx A = true.
Proof.
  apply (whenIsEntirelyIncluded_sound (CK := collaborators)).
  - apply sample_entails_sound.
  - by intros [| |k] ctx'.
Qed.

(** The first example of the spec: the user removes the only default
    binding of "x".  Nothing is left to resolve on "a", and "x" is still
    a default bound command. *)
Example removed_default_binding :
  getKeybindings (newKeybindingResolver [alwaysX] [removeAlwaysX]) = []
  ∧ resolve (newKeybindingResolver [alwaysX] [removeAlwaysX]) [] None "a" = None
  ∧ getDefaultBoundCommands (newKeybindingResolver [alwaysX] [removeAlwaysX])
      !! "x" = Some true.
Proof. by split_and!. Qed.

(** The second example of the spec: the override under the constant
    true shadows the guarded default, which leaves the reverse index and
    is not what "a" resolves to even when its guard holds. *)
Example shadowed_default_binding :
  lookupKeybindings (newKeybindingResolver [defaultX] [alwaysY]) "x" = []
  ∧ lookupKeybindings (newKeybindingResolver [defaultX] [alwaysY]) "y" = [alwaysY]
  ∧ resolve (newKeybindingResolver [defaultX] [alwaysY]) ["k"] None "a"
    = Some {| enterMultiChord := false; leaveMultiChord := false;
              resultCommands := commands alwaysY; resultBubble := false |}.
Proof. by split_and!. Qed.

(** C1 on [[defaultX; removeX; userX]]: the removal of "x" on chord "a"
    drops the default binding and keeps the user's. *)
Lemma removal_targets_defaults_only_witness :
  (defaultX ∉ handleRemovals [defaultX; removeX; userX])
  ∧ userX ∈ handleRemovals [defaultX; removeX; userX].
Proof.
  assert (removeX ∈ [defaultX; removeX; userX]) as Hd by (right; left).
  destruct (removal_targets_defaults_only
              [defaultX; removeX; userX] removeX "a" "x" Hd eq_refl eq_refl eq_refl)
    as [Hdefault Huser].
  split.
  - apply Hdefault; [discriminate | reflexivity..].
  - apply Huser; [reflexivity | | reflexivity..]. right; right; left.
Defined.

(** C1 fails for the empty command: the directive "-" on chord "a"
    targets the empty command, and the default rule binding it on "a" is
    still in the output. *)
Lemma removal_of_empty_command_counterexample :
  ¬ (∀ (rules : list Item) (d : Item) (K C : string),
       d ∈ rules → chords d = [K] → when d = None →
       bindsCommand (String "-" C) d →
       (∀ r : Item, isDefault r = true → bindsCommand C r →
                    chords r !! 0 = Some K → r ∉ handleRemovals rules)
       ∧ (∀ u : Item, u ∈ rules → isDefault u = false → bindsCommand C u →
                      chords u !! 0 = Some K → u ∈ handleRemovals rules)).
Proof.
  intros Hclaim.
  assert (removeEmpty ∈ [defaultEmpty; removeEmpty]) as Hd by (right; left).
  destruct (Hclaim [defaultEmpty; removeEmpty] removeEmpty "a" EmptyString
              Hd eq_refl eq_refl eq_refl) as [Hdefault _].
  apply (Hdefault defaultEmpty); [reflexivity..|].
  vm_compute. left.
Qed.

(** C2 on the resolver of the default [defaultX] and the override
    [userY], with the key "k" set: both rules are satisfied and the
    override, registered later, is returned. *)
Lemma resolve_most_recent_satisfied_witness :
  resolve (newKeybindingResolver [defaultX] [userY]) ["k"] None "a"
  = Some (resolveResult None userY).
Proof.
  destruct (resolve_most_recent_satisfied (CK := collaborators))
    as (_ & _ & Hlater).
  apply (Hlater [defaultX] [userY] ["k"] "a" [] defaultX [] userY []);
    [reflexivity..|].
  intros x Hx. by apply elem_of_nil in Hx.
Defined.

(** C3 as stated fails when both rules are multi-chord rules with
    different second chords: [chordAB] is registered before [chordAC] on
    the same first chord, the commands differ and the inclusion test
    holds, yet [chordAB] is still returned by [lookupKeybindings]. *)
Lemma shadowing_of_unrelated_chords_counterexample :
  getKeybindings (newKeybindingResolver [chordAB] [chordAC])
    = [chordAB; chordAC]
  ∧ chords chordAB !! 0 = chords chordAC !! 0
  ∧ command <$> commands chordAB ≠ command <$> commands chordAC
  ∧ whenIsEntirelyIncluded (when chordAB) (when chordAC) = true
  ∧ ¬ (chordAB ∉ lookupKeybindings (newKeybindingResolver [chordAB] [chordAC]) "x").
Proof.
  split_and!; [reflexivity | reflexivity | discriminate | reflexivity |].
  intros Hnot. apply Hnot. vm_compute. left.
Qed.

(** C3 on the defaults [[guardedAB; plainA; plainAC]]: [plainA] shadows
    [guardedAB], which leaves the reverse index, stays in the chord
    index, and is what [resolve] returns for "b" after "a". *)
Lemma shadowed_rule_leaves_reverse_index_only_witness :
  (∀ commandId x,
     x ∈ lookupKeybindings
           (newKeybindingResolver [guardedAB; plainA; plainAC] []) commandId →
     sameObject x guardedAB = false)
  ∧ guardedAB
      ∈ entry (_map (newKeybindingResolver [guardedAB; plainA; plainAC] [])) "a"
  ∧ resolve (newKeybindingResolver [guardedAB; plainA; plainAC] [])
      ["k"] (Some "a") "b"
    = Some {| enterMultiChord := false; leaveMultiChord := true;
              resultCommands := commands guardedAB;
              resultBubble := false |}.
Proof.
  assert (∀ x : Item, x ∈ [] ++ [] ++ plainA :: [plainAC] → ref x ≠ ref guardedAB)
    as Huniq.
  { intros x [->|[->|Hx]%elem_of_cons]%elem_of_cons;
      [discriminate..|by apply elem_of_nil in Hx]. }
  assert (¬ (1 < length (chords guardedAB) ∧ 1 < length (chords plainA)
             ∧ chords guardedAB !! 1 ≠ chords plainA !! 1)) as Hchords.
  { intros (_ & Hlen & _). simpl in Hlen. lia. }
  destruct (shadowed_rule_leaves_reverse_index_only
              [guardedAB; plainA; plainAC] [] "a" [] guardedAB [] plainA [plainAC]
              eq_refl Huniq eq_refl eq_refl eq_refl
              ltac:(discriminate) Hchords eq_refl)
    as (Hlookup & Hindex & Hresolve & _).
  split_and!.
  - exact Hlookup.
  - by apply Hindex.
  - apply (Hresolve ["k"] (Some "a") "b" [] []); [reflexivity..|].
    intros x Hx. by apply elem_of_nil in Hx.
Defined.

(** C4 on the resolver of the single default [chordAB]. *)
Lemma multi_chord_flow_witness :
  resolve (newKeybindingResolver [chordAB] []) [] None "a"
    = Some {| enterMultiChord := true; leaveMultiChord := false;
              resultCommands := []; resultBubble := false |}
  ∧ resolve (newKeybindingResolver [chordAB] []) [] (Some "a") "b"
    = Some {| enterMultiChord := false; leaveMultiChord := true;
              resultCommands := commands chordAB; resultBubble := false |}
  ∧ (∀ K3, K3 ≠ "b" →
       resolve (newKeybindingResolver [chordAB] []) [] (Some "a") K3 = None).
Proof.
  apply (multi_chord_flow [chordAB] [] [] chordAB "a" "b").
  - left.
  - by intros x ->%list_elem_of_singleton.
  - reflexivity.
  - reflexivity.
Defined.

(** C5 on the resolver of the overrides [[guardedA; guardedB]], with no
    key set: no candidate for "x" is satisfied, and the most recently
    inserted one is returned. *)
Lemma lookupPrimaryKeybinding_never_null_witness :
  lookupPrimaryKeybinding (newKeybindingResolver [] [guardedA; guardedB]) "x" []
  = Some guardedB.
Proof.
  destruct (lookupPrimaryKeybinding_never_null
              (newKeybindingResolver [] [guardedA; guardedB]) "x" []
              [guardedA; guardedB] eq_refl ltac:(discriminate))
    as (_ & _ & Hscan).
  rewrite Hscan; [reflexivity | simpl; lia].
Defined.

(** C5 as stated fails in its fallback: with the candidates
    [[guardedA; guardedB]] for "x", in insertion order, and a context
    that satisfies neither, the result is not the oldest candidate. *)
Lemma primary_keybinding_fallback_counterexample :
  _lookupMap (newKeybindingResolver [] [guardedA; guardedB]) !! "x"
    = Some [guardedA; guardedB]
  ∧ contextMatchesRules (Collaborators := collaborators) [] (when guardedA) = false
  ∧ contextMatchesRules (Collaborators := collaborators) [] (when guardedB) = false
  ∧ lookupPrimaryKeybinding (newKeybindingResolver [] [guardedA; guardedB]) "x" []
    ≠ head [guardedA; guardedB].
Proof. split_and!; [reflexivity..|]. vm_compute. discriminate. Qed.

(** C6 on the default [defaultX] and the override [removeX]: the merged
    rules no longer bind "x", and "x" is still a default bound command. *)
Lemma default_bound_commands_witness :
  getKeybindings (newKeybindingResolver [defaultX] [removeX]) = []
  ∧ getDefaultBoundCommands (newKeybindingResolver [defaultX] [removeX]) !! "x"
    = Some true
  ∧ getDefaultBoundCommands (newKeybindingResolver [defaultX] [userY]) !! "y"
    = None.
Proof.
  split_and!.
  - reflexivity.
  - destruct (default_bound_commands [defaultX] [removeX] "x")
      as (_ & _ & _ & Hkept & _).
    apply (Hkept defaultX); [left | reflexivity | discriminate | reflexivity].
  - destruct (default_bound_commands [defaultX] [userY] "y")
      as (_ & _ & _ & _ & Huser).
    apply Huser. intros d ->%list_elem_of_singleton.
    intros [=]%list_elem_of_singleton.
Defined.

(** C6 as stated fails on the defaults [[twoCommands; unboundB]]: "x"
    is in the set although no default binds it as its single command,
    and the empty command is bound by a default as its single command,
    does not start with '-', and is not in the set. *)
Lemma default_bound_commands_counterexample :
  (getDefaultBoundCommands (newKeybindingResolver [twoCommands; unboundB] [])
     !! "x" = Some true
   ∧ ¬ ∃ d : Item, d ∈ [twoCommands; unboundB] ∧ bindsCommand "x" d)
  ∧ (getDefaultBoundCommands (newKeybindingResolver [twoCommands; unboundB] [])
       !! EmptyString = None
     ∧ startsWithDash EmptyString = false
     ∧ ∃ d : Item, d ∈ [twoCommands; unboundB] ∧ bindsCommand EmptyString d).
Proof.
  split_and!; [reflexivity | | reflexivity | reflexivity |].
  - intros (d & [->|[->|Hd]%elem_of_cons]%elem_of_cons & Hb);
      [discriminate Hb..|by apply elem_of_nil in Hd].
  - exists unboundB. split; [right; left | reflexivity].
Qed.

(** C7 on [[placeholder; removeX]]: the rule without commands is kept
    although a removal directive is present, and the directive is
    dropped. *)
Lemma removal_pass_keeps_placeholders_drops_directives_witness :
  placeholder ∈ handleRemovals [placeholder; removeX]
  ∧ (removeX ∉ handleRemovals [placeholder; removeX]).
Proof.
  destruct (removal_pass_keeps_placeholders_drops_directives
              (CK := collaborators)) as (_ & Hkept & Hdropped & _).
  split.
  - apply Hkept; [left | reflexivity].
  - apply Hdropped. reflexivity.
Defined.

(** C9 on the resolver of [chordAB], after "a": the outcome of "b" does
    not enter a multi-chord. *)
Lemma enter_multi_chord_only_when_fresh_witness :
  ∃ res,
    resolve (newKeybindingResolver [chordAB] []) [] (Some "a") "b" = Some res
    ∧ enterMultiChord res = false.
Proof.
  exists {| enterMultiChord := false; leaveMultiChord := true;
            resultCommands := commands chordAB; resultBubble := false |}.
  split; [reflexivity|].
  destruct (enter_multi_chord_only_when_fresh
              (newKeybindingResolver [chordAB] []) [] (Some "a") "b"
              {| enterMultiChord := false; leaveMultiChord := true;
                 resultCommands := commands chordAB; resultBubble := false |}
              eq_refl) as [Hmid _].
  apply Hmid. eauto.
Defined.

(** C10 on the resolver of the single default [placeholder]: the rule
    is indexed under "a" and resolving "a" returns an outcome with no
    commands that does not enter a multi-chord. *)
Lemma zero_command_rule_is_indexed_witness :
  placeholder ∈ entry (_map (newKeybindingResolver [placeholder] [])) "a"
  ∧ resolve (newKeybindingResolver [placeholder] []) [] None "a"
    = Some {| enterMultiChord := false; leaveMultiChord := false;
              resultCommands := []; resultBubble := false |}.
Proof.
  destruct (zero_command_rule_is_indexed [placeholder] [])
    as (_ & Hindexed & Hresolve).
  split.
  - apply Hindexed; [left | reflexivity..].
  - apply (Hresolve [] "a" [] placeholder []); [reflexivity..|].
    intros x Hx. by apply elem_of_nil in Hx.
Defined.

(** X5 on [[defaultX; removeXEverywhere]]: the directive has no chord
    and the constant true as predicate, and the guarded default binding
    of "x" on "a" is dropped. *)
Lemma chordless_directive_unbinds_everywhere_witness :
  defaultX ∉ handleRemovals [defaultX; removeXEverywhere].
Proof.
  apply (chordless_directive_unbinds_everywhere
           [defaultX; removeXEverywhere] removeXEverywhere "x").
  - right; left.
  - reflexivity.
  - reflexivity.
  - by right.
  - reflexivity.
  - discriminate.
  - reflexivity.
  - reflexivity.
Defined.

(** X6 on [[defaultX; removeXOnB]]: the directive names chord "b", and
    the default binding of "x" on "a" stays. *)
Lemma mismatched_directives_spare_default_witness :
  defaultX ∈ handleRemovals [defaultX; removeXOnB].
Proof.
  apply mismatched_directives_spare_default; [left | reflexivity |].
  intros d c [->|[->|Hd]%elem_of_cons]%elem_of_cons Hb Ht.
  - discriminate Ht.
  - left. split; [reflexivity | discriminate].
  - by apply elem_of_nil in Hd.
Defined.

(** X9 on the resolver of [chordAB], for "b" after "a". *)
Lemma resolve_some_from_rule_witness :
  ∃ r : Item,
    r ∈ getKeybindings (newKeybindingResolver [chordAB] [])
    ∧ matchesKeys (Some "a") "b" r
    ∧ satisfiedIn (CK := collaborators) [] r = true
    ∧ whenHasType (when r) ExprFalse = false
    ∧ {| enterMultiChord := false; leaveMultiChord := true;
         resultCommands := commands chordAB; resultBubble := false |}
      = resolveResult (Some "a") r.
Proof.
  apply (resolve_some_from_rule [chordAB] [] [] (Some "a") "b"). reflexivity.
Defined.

(** X10 on the resolver of [chordAB], for "b" after "a": the outcome
    leaves the multi-chord. *)
Lemma leaveMultiChord_iff_mid_chord_witness :
  leaveMultiChord
    {| enterMultiChord := false; leaveMultiChord := true;
       resultCommands := commands chordAB; resultBubble := false |} = true
  ↔ is_Some (Some "a").
Proof.
  apply (leaveMultiChord_iff_mid_chord
           (newKeybindingResolver [chordAB] []) [] (Some "a") "b").
  reflexivity.
Defined.

(** X11 on the default [defaultX] and the overrides ending in [userY],
    with the key "k" set. *)
Lemma last_override_wins_witness :
  resolve (newKeybindingResolver [defaultX] ([userX] ++ [userY])) ["k"] None "a"
  = Some {| enterMultiChord := false; leaveMultiChord := false;
            resultCommands := commands userY; resultBubble := false |}.
Proof.
  apply (last_override_wins [defaultX] [userX] userY ["k"] "a"); reflexivity.
Defined.

(** X14 on the default [defaultX] and the override [userY]. *)
Lemma last_rule_heads_lookupKeybindings_witness :
  head (lookupKeybindings (newKeybindingResolver [defaultX] [userY]) "y")
  = Some userY.
Proof.
  apply (last_rule_heads_lookupKeybindings [defaultX] [userY] [defaultX]);
    reflexivity.
Defined.

(** X15 on the resolver of [chordAB] and [chordAC]: the two rules share
    their first chord only, and [chordAB] stays in the reverse index. *)
Lemma unshadowed_rule_stays_in_reverse_index_witness :
  chordAB ∈ lookupKeybindings (newKeybindingResolver [chordAB] [chordAC]) "x".
Proof.
  assert (getKeybindings (newKeybindingResolver [chordAB] [chordAC])
          = [chordAB; chordAC]) as Hm by reflexivity.
  apply (unshadowed_rule_stays_in_reverse_index [chordAB] [chordAC] chordAB "a").
  - rewrite Hm. left.
  - reflexivity.
  - reflexivity.
  - rewrite Hm. intros x [->|[->|Hx]%elem_of_cons]%elem_of_cons Hid;
      [reflexivity | discriminate Hid | by apply elem_of_nil in Hx].
  - rewrite Hm. intros x [->|[->|Hx]%elem_of_cons]%elem_of_cons _.
    + by left.
    + right. right. simpl. split_and!; [lia | lia | discriminate].
    + by apply elem_of_nil in Hx.
Defined.

(** X16 on the sample language, whose implication check is sound. *)
Lemma whenIsEntirelyIncluded_implies_in_context_witness :
  _contextMatchesRules (CK := collaborators) ["k"] (Some (Has "k")) = true.
Proof.
  apply (whenIsEntirelyIncluded_implies_in_context (CK := collaborators)
           (Some (Has "k")) (Some (Has "k")) ["k"]).
  - apply sample_entails_sound.
  - by intros [| |key] ctx.
  - reflexivity.
  - reflexivity.
Defined.
